(** * A streaming Markdown renderer for terminals: model and properties

    Shallow embedding of [src/helpers/markdown-renderer.ts].

    - A JavaScript string is the list of its UTF-16 code units ([jsstring]);
      [String.prototype.length] is [length].
    - The renderer's private mutable state is the record [RendererState]; the
      sink ([writer]) is the list of the strings handed to it, oldest first.
      Both travel together in a [Machine].
    - One pass through the body of the [while] loop of [processPending] is
      [iteration]; the loop is [loop], run on a fuel that is shown to be
      enough.
    - Regular expressions that are only tested ([.test], or a [match] whose
      groups are unused) are written as values of [regex] and decided by
      derivatives; the ones whose groups or replacements matter are
      hand-written scanners, each with the regular expression it embeds
      (in these comments [x{0,}] stands for a starred [x] right before a
      closing parenthesis). *)

From Stdlib Require Import List Bool Arith NArith ZArith Lia String Ascii.
Import ListNotations.

(* ===================================================================== *)
(** ** Strings *)
(* ===================================================================== *)

Definition char := N.
Definition jsstring := list char.

(** A literal (ASCII only). *)
Definition str (s : string) : jsstring :=
  map N_of_ascii (list_ascii_of_string s).

Local Open Scope N_scope.

Definition ESC : char := 27.        (* \x1b *)
Definition LF : char := 10.         (* \n *)
Definition PIPE : char := 124.      (* | *)
Definition DASH : char := 45.       (* - *)
Definition COLON : char := 58.      (* : *)
Definition SPACE : char := 32.
Definition BACKTICK : char := 96.
Definition TILDE : char := 126.
Definition STAR : char := 42.
Definition UNDERSCORE : char := 95.
Definition HASH : char := 35.

Definition ceq (a b : char) : bool := N.eqb a b.

(** [\s], which is also the set [String.prototype.trim] removes:
    WhiteSpace and LineTerminator of ECMAScript. *)
Definition isSpace (c : char) : bool :=
  (N.leb 9 c && N.leb c 13)             (* \t \n \v \f \r *)
  || ceq c 32 || ceq c 160              (* space, no-break space *)
  || ceq c 5760                         (* U+1680 *)
  || (N.leb 8192 c && N.leb c 8202)     (* U+2000 .. U+200A *)
  || ceq c 8232 || ceq c 8233           (* U+2028, U+2029 *)
  || ceq c 8239 || ceq c 8287           (* U+202F, U+205F *)
  || ceq c 12288 || ceq c 65279.        (* U+3000, U+FEFF *)

(** The characters [.] does not match (no [s] flag). *)
Definition isLineTerminator (c : char) : bool :=
  ceq c 10 || ceq c 13 || ceq c 8232 || ceq c 8233.

Definition isDigit (c : char) : bool := N.leb 48 c && N.leb c 57.

Local Close Scope N_scope.

Fixpoint dropWhile (p : char -> bool) (s : jsstring) : jsstring :=
  match s with
  | c :: t => if p c then dropWhile p t else s
  | [] => []
  end.

Fixpoint takeWhile (p : char -> bool) (s : jsstring) : jsstring :=
  match s with
  | c :: t => if p c then c :: takeWhile p t else []
  | [] => []
  end.

Definition trimStart (s : jsstring) : jsstring := dropWhile isSpace s.
Definition trimEnd (s : jsstring) : jsstring := rev (dropWhile isSpace (rev s)).
Definition trim (s : jsstring) : jsstring := trimEnd (trimStart s).

Fixpoint startsWith (p s : jsstring) : bool :=
  match p, s with
  | [], _ => true
  | a :: p', b :: s' => ceq a b && startsWith p' s'
  | _ :: _, [] => false
  end.

Definition includes (c : char) (s : jsstring) : bool := existsb (ceq c) s.

(** [s.split(c)] for a one-character separator: never the empty array. *)
Fixpoint split (sep : char) (s : jsstring) : list jsstring :=
  match s with
  | [] => [[]]
  | c :: t =>
      if ceq c sep then [] :: split sep t
      else match split sep t with
           | l :: ls => (c :: l) :: ls
           | [] => [[c]]
           end
  end.

(** [xs.join(sep)]. *)
Fixpoint join (sep : jsstring) (xs : list jsstring) : jsstring :=
  match xs with
  | [] => []
  | [x] => x
  | x :: t => x ++ sep ++ join sep t
  end.

(** ['c'.repeat(n)] *)
Definition repeatChar (c : char) (n : nat) : jsstring := repeat c n.

(* ===================================================================== *)
(** ** The escape sequences ([ansi]) *)
(* ===================================================================== *)

Module ansi.
Definition sgr (code : string) : jsstring :=
  ESC :: str "[" ++ str code ++ str "m".
Definition reset := sgr "0".
Definition boldOn := sgr "1".
Definition boldOff := sgr "22".
Definition italicOn := sgr "3".
Definition italicOff := sgr "23".
Definition strikeOn := sgr "9".
Definition strikeOff := sgr "29".
Definition underlineOn := sgr "4".
Definition underlineOff := sgr "24".
Definition dimOn := sgr "2".
Definition dimOff := sgr "22".
Definition cyanOn := sgr "36".
Definition cyanOff := sgr "39".
Definition codeOn := sgr "36".
Definition codeOff := sgr "39".
Definition headingOn := sgr "1" ++ sgr "36".
Definition headingOff := sgr "22" ++ sgr "39".
End ansi.

(* ===================================================================== *)
(** ** Regular expressions that are only tested *)
(* ===================================================================== *)

Inductive regex : Type :=
| Void : regex
| Eps : regex
| Cls : (char -> bool) -> regex             (* one character of a class *)
| Seq : regex -> regex -> regex
| Alt : regex -> regex -> regex
| Star : regex -> regex.

Definition Opt (r : regex) : regex := Alt r Eps.        (* r? *)
Definition Plus (r : regex) : regex := Seq r (Star r).  (* r+ *)
Definition Chr (c : char) : regex := Cls (ceq c).

Fixpoint nullable (r : regex) : bool :=
  match r with
  | Void => false
  | Eps => true
  | Cls _ => false
  | Seq a b => nullable a && nullable b
  | Alt a b => nullable a || nullable b
  | Star _ => true
  end.

Fixpoint deriv (c : char) (r : regex) : regex :=
  match r with
  | Void => Void
  | Eps => Void
  | Cls p => if p c then Eps else Void
  | Seq a b =>
      if nullable a then Alt (Seq (deriv c a) b) (deriv c b)
      else Seq (deriv c a) b
  | Alt a b => Alt (deriv c a) (deriv c b)
  | Star a => Seq (deriv c a) (Star a)
  end.

(** [/^r$/.test(s)] *)
Fixpoint matches (r : regex) (s : jsstring) : bool :=
  match s with
  | [] => nullable r
  | c :: t => matches (deriv c r) t
  end.

(** The strings of a regular expression. *)
Inductive lang : regex -> jsstring -> Prop :=
| L_eps : lang Eps []
| L_cls : forall (p : char -> bool) c, p c = true -> lang (Cls p) [c]
| L_seq : forall a b s t, lang a s -> lang b t -> lang (Seq a b) (s ++ t)
| L_alt_l : forall a b s, lang a s -> lang (Alt a b) s
| L_alt_r : forall a b s, lang b s -> lang (Alt a b) s
| L_star_nil : forall a, lang (Star a) []
| L_star_cons : forall a s t,
    lang a s -> lang (Star a) t -> lang (Star a) (s ++ t).

(* ===================================================================== *)
(** ** Line classifiers *)
(* ===================================================================== *)

(** [line.trim().startsWith('```')] *)
Definition isFence (line : jsstring) : bool :=
  startsWith (str "```") (trim line).

Definition ws : regex := Star (Cls isSpace).                     (* \s* *)
Definition dashCellRe : regex :=                                 (* \s*:?-+:?\s* *)
  Seq ws (Seq (Opt (Chr COLON)) (Seq (Plus (Chr DASH))
    (Seq (Opt (Chr COLON)) ws))).

(** [/^\s*\|?(\s*:?-+:?\s*\|)+\s*:?-+:?\s*\|?\s*$/] *)
Definition separatorRe : regex :=
  Seq ws (Seq (Opt (Chr PIPE)) (Seq (Plus (Seq dashCellRe (Chr PIPE)))
    (Seq dashCellRe (Seq (Opt (Chr PIPE)) ws)))).

Definition isTableSeparator (line : jsstring) : bool :=
  matches separatorRe line.

(** [line.includes('|')] *)
Definition isTableRow (line : jsstring) : bool := includes PIPE line.

(** [s.replace(/^\|/, '')] and [s.replace(/\|$/, '')] *)
Definition dropLeadingPipe (s : jsstring) : jsstring :=
  match s with
  | c :: t => if ceq c PIPE then t else s
  | [] => []
  end.

Definition dropTrailingPipe (s : jsstring) : jsstring :=
  rev (dropLeadingPipe (rev s)).

Definition parseTableRow (line : jsstring) : list jsstring :=
  let trimmed := dropTrailingPipe (dropLeadingPipe (trim line)) in
  map trim (split PIPE trimmed).

(* ===================================================================== *)
(** ** Global replacement *)
(* ===================================================================== *)

(** [s.replace(/re/g, template)].  A [matcher] is one attempt of the regular
    expression at the current position: it gets whether that position is
    the start of the string (for [^]) and the text from there on, and
    returns the expanded template and the text after the match.  No pattern
    of this file matches the empty string, so the search resumes where the
    match ended; where there is no match one character is copied. *)
Definition matcher := bool -> jsstring -> option (jsstring * jsstring).

Fixpoint replaceAllFrom (m : matcher) (fuel : nat) (atStart : bool)
    (s : jsstring) : jsstring :=
  match fuel with
  | O => s
  | S fuel' =>
      match m atStart s with
      | Some (replacement, rest) =>
          replacement ++ replaceAllFrom m fuel' false rest
      | None =>
          match s with
          | [] => []
          | c :: t => c :: replaceAllFrom m fuel' false t
          end
      end
  end.

Definition replaceAll (m : matcher) (s : jsstring) : jsstring :=
  replaceAllFrom m (List.length s) true s.

Definition isNot (c : char) : char -> bool := fun x => negb (ceq x c).

(** [/\x1b\[[0-9;]*m/]: the run [[0-9;]*] is taken whole, since giving a
    character of it back never puts an [m] next. *)
Definition isSgrParam (c : char) : bool := isDigit c || ceq c 59%N.

Definition matchSgr : matcher := fun _ s =>
  match s with
  | e :: b :: t =>
      if ceq e ESC && ceq b 91%N then
        match dropWhile isSgrParam t with
        | m :: rest => if ceq m 109%N then Some ([], rest) else None
        | [] => None
        end
      else None
  | _ => None
  end.

(** [value.replace(/\x1b\[[0-9;]*m/g, '')] *)
Definition stripAnsi (value : jsstring) : jsstring := replaceAll matchSgr value.

(* ===================================================================== *)
(** ** The inline styler *)
(* ===================================================================== *)

(** An opening marker, a greedy run [[^c]+] (taken whole for the same
    reason as above), and what follows it. *)
Definition runNot (c : char) (s : jsstring) : jsstring * jsstring :=
  (takeWhile (isNot c) s, dropWhile (isNot c) s).

(** [/`([^`]+)`/] with template [codeOn $1 codeOff] *)
Definition matchCodeSpan : matcher := fun _ s =>
  match s with
  | q :: t =>
      if ceq q BACKTICK then
        match runNot BACKTICK t with
        | ((_ :: _) as body, q' :: rest) =>
            if ceq q' BACKTICK
            then Some (ansi.codeOn ++ body ++ ansi.codeOff, rest) else None
        | _ => None
        end
      else None
  | [] => None
  end.

(** [/~~([^~]+)~~/] with template [strikeOn $1 strikeOff] *)
Definition matchStrike : matcher := fun _ s =>
  match s with
  | a :: b :: t =>
      if ceq a TILDE && ceq b TILDE then
        match runNot TILDE t with
        | ((_ :: _) as body, a' :: b' :: rest) =>
            if ceq a' TILDE && ceq b' TILDE
            then Some (ansi.strikeOn ++ body ++ ansi.strikeOff, rest)
            else None
        | _ => None
        end
      else None
  | _ => None
  end.

(** The lazy [(.+?)\1]: the shortest non-empty run of characters other
    than line terminators that is followed by the opening marker [d]. *)
Fixpoint lazyUntil (d : jsstring) (s : jsstring) : option (jsstring * jsstring) :=
  match s with
  | [] => None
  | c :: t =>
      if isLineTerminator c then None
      else if startsWith d t then Some ([c], skipn (List.length d) t)
      else match lazyUntil d t with
           | Some (body, rest) => Some (c :: body, rest)
           | None => None
           end
  end.

(** [/(\*\*|__)(.+?)\1/] with template [boldOn $2 boldOff] *)
Definition matchBold : matcher := fun _ s =>
  match s with
  | a :: b :: t =>
      if (ceq a STAR && ceq b STAR) || (ceq a UNDERSCORE && ceq b UNDERSCORE)
      then match lazyUntil [a; b] t with
           | Some (body, rest) =>
               Some (ansi.boldOn ++ body ++ ansi.boldOff, rest)
           | None => None
           end
      else None
  | _ => None
  end.

(** The part of the italic pattern after its first group, which matched
    [pre]: the marker [c], a greedy run of other characters, the marker
    again, and no third marker next (the negative look-ahead). *)
Definition italicBody (c : char) (pre s : jsstring) : option (jsstring * jsstring) :=
  match s with
  | o :: t =>
      if ceq o c then
        match runNot c t with
        | ((_ :: _) as body, o' :: rest) =>
            if ceq o' c && negb (startsWith [c] rest)
            then Some (pre ++ ansi.italicOn ++ body ++ ansi.italicOff, rest)
            else None
        | _ => None
        end
      else None
  | [] => None
  end.

(** [/(^|[^*])\*([^*]+)\*L/], where [L] is the negative look-ahead for one
    more [*], with template [$1 italicOn $2 italicOff]; and the same with
    [_].  The alternative [^] is tried first, then [[^*]]. *)
Definition matchItalic (c : char) : matcher := fun atStart s =>
  match (if atStart then italicBody c [] s else None) with
  | Some r => Some r
  | None =>
      match s with
      | p :: t => if isNot c p then italicBody c [p] t else None
      | [] => None
      end
  end.

(** [/\[([^\]]+)\]\(([^)]+)\)/] with template
    [underlineOn cyanOn $1 underlineOff cyanOff ($2)] *)
Definition matchLink : matcher := fun _ s =>
  match s with
  | o :: t =>
      if ceq o 91%N then
        match runNot 93%N t with
        | ((_ :: _) as text, c1 :: p :: t') =>
            if ceq c1 93%N && ceq p 40%N then
              match runNot 41%N t' with
              | ((_ :: _) as url, c2 :: rest) =>
                  if ceq c2 41%N
                  then Some (ansi.underlineOn ++ ansi.cyanOn ++ text
                             ++ ansi.underlineOff ++ ansi.cyanOff
                             ++ str " (" ++ url ++ str ")", rest)
                  else None
              | _ => None
              end
            else None
        | _ => None
        end
      else None
  | [] => None
  end.

Definition renderInline (text : jsstring) : jsstring :=
  let output := text in
  let output := replaceAll matchCodeSpan output in
  let output := replaceAll matchStrike output in
  let output := replaceAll matchBold output in
  let output := replaceAll (matchItalic STAR) output in
  let output := replaceAll (matchItalic UNDERSCORE) output in
  let output := replaceAll matchLink output in
  output.

(* ===================================================================== *)
(** ** The table renderer *)
(* ===================================================================== *)

Record TableState : Type := mkTable {
  header : list jsstring;
  rows : list (list jsstring)
}.

(** A JavaScript array that may have holes: [None] is a hole, and an index
    past the end reads as a hole too. *)
Definition sparse (A : Type) := list (option A).

Definition arrayGet {A} (a : sparse A) (index : nat) : option A :=
  nth index a None.

(** [a[index] = v]: an assignment past the end extends the array and leaves
    holes before the new element. *)
Fixpoint arraySet {A} (a : sparse A) (index : nat) (v : A) : sparse A :=
  match index, a with
  | O, [] => [Some v]
  | O, _ :: t => Some v :: t
  | S i, [] => None :: arraySet [] i v
  | S i, x :: t => x :: arraySet t i v
  end.

(** The (element, index) pairs a [forEach] or [map] callback is called on. *)
Definition indexed {A} (l : list A) : list (nat * A) :=
  combine (seq 0 (List.length l)) l.

(** [a.map(f)]: holes are skipped and stay holes. *)
Definition arrayMap {A B} (f : A -> nat -> B) (a : sparse A) : sparse B :=
  map (fun p => option_map (fun x => f x (fst p)) (snd p)) (indexed a).

(** [a.join(sep)]: a hole joins as the empty string. *)
Definition arrayJoin (sep : jsstring) (a : sparse jsstring) : jsstring :=
  join sep (map (fun x => match x with Some s => s | None => [] end) a).

(** [stripAnsi(renderInline(cell)).length] *)
Definition visibleLength (cell : jsstring) : nat :=
  List.length (stripAnsi (renderInline cell)).

(** The body of the inner [forEach] of [renderTable]:
    [widths[index] = Math.max(widths[index] ?? 0, length, 3)]. *)
Definition measureCell (widths : sparse nat) (p : nat * jsstring) : sparse nat :=
  let (index, cell) := p in
  let styled := renderInline cell in
  let length := List.length (stripAnsi styled) in
  let old := match arrayGet widths index with Some w => w | None => 0 end in
  arraySet widths index (Nat.max (Nat.max old length) 3).

Definition measureRow (widths : sparse nat) (row : list jsstring) : sparse nat :=
  fold_left measureCell (indexed row) widths.

Definition computeWidths (table : TableState) : sparse nat :=
  let allRows := header table :: rows table in
  fold_left measureRow allRows [].

Definition renderCell (row : list jsstring) (isHeader : bool)
    (width : nat) (index : nat) : jsstring :=
  let value := nth index row [] in                     (* row[index] ?? '' *)
  let styled := renderInline value in
  let padding := (Z.of_nat width - Z.of_nat (List.length (stripAnsi styled)))%Z in
  let padded := styled ++ repeatChar SPACE (Z.to_nat (Z.max 0 padding)) in
  if negb isHeader then padded
  else ansi.boldOn ++ ansi.cyanOn ++ padded ++ ansi.boldOff ++ ansi.cyanOff.

Definition rowCells (widths : sparse nat) (row : list jsstring)
    (isHeader : bool) : sparse jsstring :=
  arrayMap (renderCell row isHeader) widths.

Definition framed (cells : sparse jsstring) : jsstring :=
  str "| " ++ arrayJoin (str " | ") cells ++ str " |".

Definition renderRow (widths : sparse nat) (row : list jsstring)
    (isHeader : bool) : jsstring :=
  framed (rowCells widths row isHeader).

Definition separatorCells (widths : sparse nat) : sparse jsstring :=
  arrayMap (fun width _ => repeatChar DASH width) widths.

Definition tableLines (table : TableState) : list jsstring :=
  let widths := computeWidths table in
  let separator := framed (separatorCells widths) in
  [renderRow widths (header table) true; separator]
    ++ map (fun row => renderRow widths row false) (rows table).

Definition renderTable (table : TableState) : jsstring :=
  join [LF] (tableLines table).

(* ===================================================================== *)
(** ** The generic line renderer *)
(* ===================================================================== *)

Definition noLineTerminator (s : jsstring) : bool :=
  forallb (fun c => negb (isLineTerminator c)) s.

(** The tail [\s+(.{0,})$] of the heading and list patterns: at least one
    white space, the whole run of them, and a rest without line
    terminators, which is the group.  (Giving white space back to the group
    never removes a line terminator from what it has to match.) *)
Definition spacesThenRest (s : jsstring) : option jsstring :=
  match s with
  | c :: _ =>
      if isSpace c then
        let rest := dropWhile isSpace s in
        if noLineTerminator rest then Some rest else None
      else None
  | [] => None
  end.

(** [/^\s*(#{1,6})\s+(.{0,})$/]: group 2. *)
Definition matchHeading (line : jsstring) : option jsstring :=
  let afterIndent := dropWhile isSpace line in
  let hashes := takeWhile (ceq HASH) afterIndent in
  if (1 <=? List.length hashes) && (List.length hashes <=? 6)
  then spacesThenRest (dropWhile (ceq HASH) afterIndent)
  else None.

Definition atLeast3 (c : char) : regex :=                 (* c{3,} *)
  Seq (Chr c) (Seq (Chr c) (Plus (Chr c))).

(** [/^\s*(-{3,}|\*{3,}|_{3,})\s*$/] *)
Definition hrRe : regex :=
  Seq ws (Seq (Alt (atLeast3 DASH) (Alt (atLeast3 STAR) (atLeast3 UNDERSCORE))) ws).

(** [/^(\s{0,})>\s?(.{0,})$/]: groups 1 and 2. *)
Definition matchBlockquote (line : jsstring) : option (jsstring * jsstring) :=
  let indent := takeWhile isSpace line in
  match dropWhile isSpace line with
  | q :: t =>
      if ceq q 62%N then
        let content := match t with
                       | c :: t' => if isSpace c then t' else t
                       | [] => []
                       end in
        if noLineTerminator content then Some (indent, content) else None
      else None
  | [] => None
  end.

(** [/^(\s{0,})(\d+)\.\s+(.{0,})$/]: groups 1, 2 and 3. *)
Definition matchOrdered (line : jsstring)
    : option (jsstring * jsstring * jsstring) :=
  let indent := takeWhile isSpace line in
  let afterIndent := dropWhile isSpace line in
  match takeWhile isDigit afterIndent, dropWhile isDigit afterIndent with
  | (_ :: _) as marker, dot :: t =>
      if ceq dot 46%N then
        match spacesThenRest t with
        | Some content => Some (indent, marker, content)
        | None => None
        end
      else None
  | _, _ => None
  end.

(** [/^(\s{0,})[-*+]\s+(.{0,})$/]: groups 1 and 2. *)
Definition matchUnordered (line : jsstring) : option (jsstring * jsstring) :=
  let indent := takeWhile isSpace line in
  match dropWhile isSpace line with
  | b :: t =>
      if ceq b DASH || ceq b STAR || ceq b 43%N then
        match spacesThenRest t with
        | Some content => Some (indent, content)
        | None => None
        end
      else None
  | [] => None
  end.

Definition BOX_HORIZONTAL : char := 9472%N.   (* U+2500 *)
Definition BOX_VERTICAL : char := 9474%N.     (* U+2502 *)
Definition BULLET : char := 8226%N.           (* U+2022 *)

Definition renderLine (line : jsstring) : jsstring :=
  match trim line with
  | [] => []
  | _ :: _ =>
  match matchHeading line with
  | Some title =>
      let text := renderInline (trim title) in
      ansi.headingOn ++ text ++ ansi.headingOff
  | None =>
  if matches hrRe line then
    ansi.dimOn ++ repeatChar BOX_HORIZONTAL 40 ++ ansi.dimOff
  else
  match matchBlockquote line with
  | Some (indent, quoted) =>
      let content := renderInline (trim quoted) in
      indent ++ ansi.dimOn ++ [BOX_VERTICAL] ++ ansi.dimOff ++ [SPACE] ++ content
  | None =>
  match matchOrdered line with
  | Some (indent, marker, item) =>
      let content := renderInline item in
      indent ++ marker ++ str ". " ++ content
  | None =>
  match matchUnordered line with
  | Some (indent, item) =>
      let content := renderInline item in
      indent ++ [BULLET; SPACE] ++ content
  | None => renderInline line
  end end end end end.

(* ===================================================================== *)
(** ** The renderer *)
(* ===================================================================== *)

Record RendererState : Type := mkState {
  buffer : jsstring;
  pendingLines : list jsstring;
  inCodeBlock : bool;
  tableState : option TableState
}.

(** The closure of [createMarkdownRenderer]: its private [state] and what
    [writer] has been called with so far, oldest first. *)
Record Machine : Type := mkMachine {
  state : RendererState;
  written : list jsstring
}.

Definition createInitialState : RendererState :=
  {| buffer := []; pendingLines := []; inCodeBlock := false; tableState := None |}.

Definition createMarkdownRenderer : Machine :=
  {| state := createInitialState; written := [] |}.

(** The statements of the source, as updates of the machine. *)
Definition statement := Machine -> Machine.

Definition writer (data : jsstring) : statement := fun m =>
  {| state := state m; written := written m ++ [data] |}.

Definition setBuffer (b : jsstring) : statement := fun m =>
  {| state := {| buffer := b;
                 pendingLines := pendingLines (state m);
                 inCodeBlock := inCodeBlock (state m);
                 tableState := tableState (state m) |};
     written := written m |}.

Definition setPendingLines (l : list jsstring) : statement := fun m =>
  {| state := {| buffer := buffer (state m);
                 pendingLines := l;
                 inCodeBlock := inCodeBlock (state m);
                 tableState := tableState (state m) |};
     written := written m |}.

Definition setInCodeBlock (b : bool) : statement := fun m =>
  {| state := {| buffer := buffer (state m);
                 pendingLines := pendingLines (state m);
                 inCodeBlock := b;
                 tableState := tableState (state m) |};
     written := written m |}.

Definition setTableState (t : option TableState) : statement := fun m =>
  {| state := {| buffer := buffer (state m);
                 pendingLines := pendingLines (state m);
                 inCodeBlock := inCodeBlock (state m);
                 tableState := t |};
     written := written m |}.

(** [state.pendingLines.shift()] *)
Definition shift : statement := fun m =>
  setPendingLines (tl (pendingLines (state m))) m.

(** [state.pendingLines.push(...lines)] *)
Definition push (lines : list jsstring) : statement := fun m =>
  setPendingLines (pendingLines (state m) ++ lines) m.

(** [state.tableState.rows.push(row)] *)
Definition pushRow (row : list jsstring) : statement := fun m =>
  match tableState (state m) with
  | Some table =>
      setTableState (Some {| header := header table;
                             rows := rows table ++ [row] |}) m
  | None => m
  end.

(** Statements run in order. *)
Definition run (body : list statement) (m : Machine) : Machine :=
  fold_left (fun m s => s m) body m.

Definition newline : jsstring := [LF].

Definition isEmpty (s : jsstring) : bool :=
  match s with [] => true | _ :: _ => false end.

(** The statements one pass through the body of the [while] loop of
    [processPending] runs; [None] when the loop is left, by its condition
    or by [break]. *)
Definition iterationBody (final : bool) (m : Machine) : option (list statement) :=
  match pendingLines (state m) with
  | [] => None
  | line :: _ =>
      match tableState (state m) with
      | Some table =>
          let nextLine := line in
          if isTableRow nextLine && negb (isTableSeparator nextLine) then
            Some [pushRow (parseTableRow nextLine); shift]
          else
            Some [writer (renderTable table ++ newline); setTableState None]
      | None =>
          if inCodeBlock (state m) then
            if isFence line then
              Some [shift; setInCodeBlock false;
                    writer (ansi.codeOff ++ newline)]
            else
              Some [shift; writer (line ++ newline)]
          else if isFence line then
            Some [setInCodeBlock true; shift; writer (ansi.codeOn ++ newline)]
          else
            let generic := Some [shift; writer (renderLine line ++ newline)] in
            if isTableRow line then
              if (List.length (pendingLines (state m)) <? 2) && negb final
              then None
              else
                match nth_error (pendingLines (state m)) 1 with
                | Some separator =>
                    if negb (isEmpty separator) && isTableSeparator separator
                    then
                      Some [setTableState
                              (Some {| header := parseTableRow line;
                                       rows := [] |});
                            shift; shift]
                    else generic
                | None => generic
                end
            else generic
      end
  end.

Definition iteration (final : bool) (m : Machine) : option Machine :=
  match iterationBody final m with
  | Some body => Some (run body m)
  | None => None
  end.

(** The [while] loop, on fuel. *)
Fixpoint loop (fuel : nat) (final : bool) (m : Machine) : Machine :=
  match fuel with
  | O => m
  | S fuel' =>
      match iteration final m with
      | Some m' => loop fuel' final m'
      | None => m
      end
  end.

(** What every pass of the loop makes smaller ([iteration_decreases]). *)
Definition work (m : Machine) : nat :=
  2 * List.length (pendingLines (state m))
  + match tableState (state m) with Some _ => 1 | None => 0 end.

Definition processPending (final : bool) (m : Machine) : Machine :=
  loop (work m) final m.

(** [write], up to its call of [processPending]. *)
Definition receive (chunk : jsstring) (m : Machine) : list statement :=
  let joined := buffer (state m) ++ chunk in
  let lines := split LF joined in
  [setBuffer joined;
   setBuffer (last lines []);                         (* lines.pop() ?? '' *)
   push (removelast lines)].

Definition write (chunk : jsstring) (m : Machine) : Machine :=
  processPending false (run (receive chunk m) m).

(** The three [if] statements of [flush]. *)
Definition moveBuffer (m : Machine) : list statement :=
  if negb (isEmpty (buffer (state m)))
  then [push [buffer (state m)]; setBuffer []]
  else [].

Definition closeTable (m : Machine) : list statement :=
  match tableState (state m) with
  | Some table => [writer (renderTable table ++ newline); setTableState None]
  | None => []
  end.

Definition closeCodeBlock (m : Machine) : list statement :=
  if inCodeBlock (state m)
  then [setInCodeBlock false; writer (ansi.codeOff ++ newline)]
  else [].

Definition flush (m : Machine) : Machine :=
  let m := run (moveBuffer m) m in
  let m := processPending true m in
  let m := run (closeTable m) m in
  run (closeCodeBlock m) m.

(** A whole stream: the chunks in order, then [flush]. *)
Definition writeAll (chunks : list jsstring) (m : Machine) : Machine :=
  fold_left (fun m chunk => write chunk m) chunks m.

Definition render (chunks : list jsstring) : list jsstring :=
  written (flush (writeAll chunks createMarkdownRenderer)).

(** The states the renderer passes through: the fresh one, and the one
    after each statement of [write], of a pass of the loop and of [flush]
    (the order of the calls is left open, so this is at least every state
    of every sequence of [write] calls followed by [flush]). *)
Inductive blockAt (m : Machine) : list statement -> Prop :=
| at_receive : forall chunk, blockAt m (receive chunk m)
| at_iteration : forall final body,
    iterationBody final m = Some body -> blockAt m body
| at_moveBuffer : blockAt m (moveBuffer m)
| at_closeTable : blockAt m (closeTable m)
| at_closeCodeBlock : blockAt m (closeCodeBlock m).

Inductive reachable : Machine -> Prop :=
| reach_fresh : reachable createMarkdownRenderer
| reach_statements : forall m body k,
    reachable m -> blockAt m body -> reachable (run (firstn k body) m).

(* ===================================================================== *)
(** ** The drain loop *)
(* ===================================================================== *)

(** Splits on every test of the goal or of a hypothesis [H]. *)
Ltac split_tests :=
  repeat match goal with
  | |- context [if ?b then _ else _] => destruct b eqn:?
  | |- context [match ?x with Some _ => _ | None => _ end] => destruct x eqn:?
  end.

Ltac split_tests_in H :=
  repeat match type of H with
  | context [if ?b then _ else _] => destruct b eqn:?
  | context [match ?x with Some _ => _ | None => _ end] => destruct x eqn:?
  | context [match ?x with [] => _ | _ :: _ => _ end] => destruct x eqn:?
  end.

Lemma iterationBody_nonempty final m body :
  iterationBody final m = Some body ->
  exists line rest, pendingLines (state m) = line :: rest.
Proof.
  unfold iterationBody. destruct (pendingLines (state m)) as [|line rest].
  - discriminate.
  - intros _. now exists line, rest.
Qed.

Lemma iteration_decreases final m m' :
  iteration final m = Some m' -> work m' < work m.
Proof.
  unfold iteration, iterationBody, work.
  destruct m as [[b p c t] w]; simpl.
  destruct p as [|line rest]; [discriminate|].
  destruct t as [table|]; simpl.
  - destruct (isTableRow line && negb (isTableSeparator line));
      intros H; inversion H; subst; simpl; lia.
  - intros H. destruct rest as [|sep rest']; simpl in H;
      split_tests_in H; inversion H; subst; simpl; try lia; discriminate.
Qed.

(** In final mode the loop is left by its condition only. *)
Lemma iterationBody_final_none m :
  iterationBody true m = None -> pendingLines (state m) = [].
Proof.
  unfold iterationBody.
  destruct (pendingLines (state m)) as [|line rest]; [reflexivity|].
  simpl negb. rewrite andb_false_r.
  intros H. exfalso.
  destruct (tableState (state m)); split_tests_in H; discriminate H.
Qed.

Lemma iteration_final_none m :
  iteration true m = None -> pendingLines (state m) = [].
Proof.
  unfold iteration. intros H. apply iterationBody_final_none.
  destruct (iterationBody true m); [discriminate H | reflexivity].
Qed.

Lemma loop_exits fuel final m :
  work m <= fuel -> iteration final (loop fuel final m) = None.
Proof.
  revert m. induction fuel as [|fuel IH]; intros m Hw; simpl.
  - destruct (iteration final m) as [m'|] eqn:E; [|reflexivity].
    apply iteration_decreases in E. lia.
  - destruct (iteration final m) as [m'|] eqn:E; [|exact E].
    apply IH. apply iteration_decreases in E. lia.
Qed.

Lemma loop_more_fuel fuel extra final m :
  work m <= fuel -> loop (fuel + extra) final m = loop fuel final m.
Proof.
  revert m. induction fuel as [|fuel IH]; intros m Hw.
  - simpl. destruct extra; [reflexivity|]. simpl.
    destruct (iteration final m) as [m'|] eqn:E; [|reflexivity].
    apply iteration_decreases in E. lia.
  - simpl. destruct (iteration final m) as [m'|] eqn:E; [|reflexivity].
    apply IH. apply iteration_decreases in E. lia.
Qed.

Lemma loop_enough fuel final m :
  work m <= fuel -> loop fuel final m = processPending final m.
Proof.
  intros H. unfold processPending.
  replace fuel with (work m + (fuel - work m)) by lia.
  apply loop_more_fuel. lia.
Qed.

(** The loop, one pass at a time. *)
Lemma processPending_unfold final m :
  processPending final m =
  match iteration final m with
  | Some m' => processPending final m'
  | None => m
  end.
Proof.
  destruct (iteration final m) as [m'|] eqn:E.
  - pose proof (iteration_decreases _ _ _ E) as Hd.
    unfold processPending at 1.
    destruct (work m) as [|n] eqn:Hn; [lia|].
    simpl. rewrite E. apply loop_enough. lia.
  - unfold processPending. destruct (work m); simpl; [reflexivity|].
    now rewrite E.
Qed.

Lemma processPending_exits final m :
  iteration final (processPending final m) = None.
Proof. apply loop_exits. lia. Qed.

(** Induction along the passes of the loop. *)
Lemma processPending_ind (final : bool) (P : Machine -> Prop) :
  (forall m, (forall m', iteration final m = Some m' -> P m') -> P m) ->
  forall m, P m.
Proof.
  intros step m.
  remember (work m) as n eqn:Hn.
  revert m Hn. induction n as [n IH] using lt_wf_ind. intros m Hn.
  apply step. intros m' E.
  apply (IH (work m')); [|reflexivity].
  apply iteration_decreases in E. lia.
Qed.

(** C10.  The drain loop of [processPending] terminates from every state,
    final or not: a pass either removes a pending line or leaves the lines
    alone and clears [tableState]; after [work m] passes at most the loop
    has been left, and more fuel changes nothing; in final mode no pending
    line is left over. *)
Theorem processPending_terminates (final : bool) (m : Machine) :
  match iteration final m with
  | Some m' =>
      List.length (pendingLines (state m')) < List.length (pendingLines (state m))
      \/ (pendingLines (state m') = pendingLines (state m)
          /\ tableState (state m) <> None
          /\ tableState (state m') = None)
  | None => True
  end
  /\ iteration final (processPending final m) = None
  /\ (forall extra, loop (work m + extra) final m = processPending final m)
  /\ pendingLines (state (processPending true m)) = [].
Proof.
  split; [|split; [|split]].
  - unfold iteration, iterationBody.
    destruct m as [[b p c t] w]; simpl.
    destruct p as [|line rest]; [exact I|].
    destruct t as [table|]; simpl.
    + destruct (isTableRow line && negb (isTableSeparator line)); simpl.
      * left. lia.
      * right. repeat split. discriminate.
    + destruct rest as [|sep rest']; simpl; split_tests; simpl;
        try exact I; left; lia.
  - apply processPending_exits.
  - intros extra. apply loop_enough. lia.
  - apply iteration_final_none, processPending_exits.
Qed.

(* ===================================================================== *)
(** ** Code blocks and tables exclude each other *)
(* ===================================================================== *)

Definition isSome {A} (o : option A) : bool :=
  match o with Some _ => true | None => false end.

(** Not both a code block and a table open. *)
Definition exclusive (m : Machine) : Prop :=
  inCodeBlock (state m) && isSome (tableState (state m)) = false.

(** The prefixes of a block of at most three statements. *)
Ltac each_prefix k :=
  destruct k as [|[|[|k]]]; simpl; rewrite ?firstn_nil; simpl.

Lemma block_exclusive m body k :
  exclusive m -> blockAt m body -> exclusive (run (firstn k body) m).
Proof.
  unfold exclusive. intros Hm Hb.
  destruct m as [[b p c t] w]; simpl in *.
  destruct Hb as [chunk | final body Hbody | | | ].
  - each_prefix k; exact Hm.
  - unfold iterationBody in Hbody; simpl in Hbody.
    destruct p as [|line rest]; [discriminate|].
    destruct t as [table|]; [rewrite andb_true_r in Hm; subst c|];
      split_tests_in Hbody; inversion Hbody; subst; clear Hbody;
      each_prefix k; try reflexivity; try apply andb_false_r.
  - unfold moveBuffer; simpl. destruct (negb (isEmpty b));
      each_prefix k; exact Hm.
  - unfold closeTable; simpl. destruct t;
      each_prefix k; try exact Hm; apply andb_false_r.
  - unfold closeCodeBlock; simpl. destruct c;
      each_prefix k; try exact Hm; reflexivity.
Qed.

Lemma reachable_exclusive m : reachable m -> exclusive m.
Proof.
  induction 1 as [|m body k _ IH Hb].
  - reflexivity.
  - now apply block_exclusive.
Qed.

(** The states of real runs are among the [reachable] ones. *)
Lemma reachable_block m body :
  reachable m -> blockAt m body -> reachable (run body m).
Proof.
  intros Hm Hb. rewrite <- (firstn_all body). now apply reach_statements.
Qed.

Lemma reachable_iteration final m m' :
  reachable m -> iteration final m = Some m' -> reachable m'.
Proof.
  unfold iteration. intros Hm H.
  destruct (iterationBody final m) as [body|] eqn:E; [|discriminate].
  inversion H; subst. apply reachable_block; [exact Hm|].
  now apply at_iteration with final.
Qed.

Lemma reachable_loop fuel final m :
  reachable m -> reachable (loop fuel final m).
Proof.
  revert m. induction fuel as [|fuel IH]; intros m Hm; simpl; [exact Hm|].
  destruct (iteration final m) as [m'|] eqn:E; [|exact Hm].
  apply IH. now apply reachable_iteration with final m.
Qed.

Lemma reachable_write chunk m : reachable m -> reachable (write chunk m).
Proof.
  intros Hm. unfold write, processPending.
  apply reachable_loop, reachable_block; [exact Hm | constructor].
Qed.

Lemma reachable_writeAll chunks m :
  reachable m -> reachable (writeAll chunks m).
Proof.
  revert m. induction chunks as [|c chunks IH]; intros m Hm; simpl.
  - exact Hm.
  - apply IH. now apply reachable_write.
Qed.

Lemma reachable_flush m : reachable m -> reachable (flush m).
Proof.
  intros Hm. unfold flush, processPending.
  apply reachable_block; [|constructor].
  apply reachable_block; [|constructor].
  apply reachable_loop.
  apply reachable_block; [exact Hm | constructor].
Qed.

(** C3.  In every state the renderer passes through (after any statement
    of any [write], of any pass of the drain loop and of [flush]) the code
    block and the table are not both open. *)
Theorem mutual_exclusion (m : Machine) :
  reachable m ->
  inCodeBlock (state m) = false \/ tableState (state m) = None.
Proof.
  intros Hm. apply reachable_exclusive in Hm. unfold exclusive in Hm.
  destruct (inCodeBlock (state m)); [right | now left].
  destruct (tableState (state m)); [discriminate | reflexivity].
Qed.

(** The theorem at the states of two streams: a fence has opened a code
    block; a header and a separator line have opened a table. *)
Lemma mutual_exclusion_witness :
  let inCode := write (str "```" ++ newline) createMarkdownRenderer in
  let inTable :=
    writeAll [str "a|b" ++ newline; str "-|-" ++ newline]
      createMarkdownRenderer in
  (inCodeBlock (state inCode) = true /\ tableState (state inCode) = None)
  /\ (inCodeBlock (state inTable) = false
      /\ tableState (state inTable)
         = Some {| header := [str "a"; str "b"]; rows := [] |})
  /\ (inCodeBlock (state inCode) = false \/ tableState (state inCode) = None)
  /\ (inCodeBlock (state inTable) = false \/ tableState (state inTable) = None).
Proof.
  intros inCode inTable.
  split; [split; reflexivity|].
  split; [split; reflexivity|].
  split.
  - apply (mutual_exclusion inCode).
    apply reachable_write, reach_fresh.
  - apply (mutual_exclusion inTable).
    apply reachable_writeAll, reach_fresh.
Defined.

(* ===================================================================== *)
(** ** Splitting into lines *)
(* ===================================================================== *)

Lemma split_nonempty sep s : split sep s <> [].
Proof.
  destruct s as [|c t]; simpl; [discriminate|].
  destruct (ceq c sep); [discriminate|].
  destruct (split sep t); discriminate.
Qed.

Lemma split_cons_sep sep c t :
  ceq c sep = true -> split sep (c :: t) = [] :: split sep t.
Proof. intros H. simpl. now rewrite H. Qed.

Lemma split_cons_other sep c t :
  ceq c sep = false ->
  split sep (c :: t) = (c :: hd [] (split sep t)) :: tl (split sep t).
Proof.
  intros H. simpl. rewrite H.
  pose proof (split_nonempty sep t) as Hn.
  destruct (split sep t); [contradiction | reflexivity].
Qed.

(** The last piece of a split holds no separator. *)
Lemma split_last_clean sep s : includes sep (last (split sep s) []) = false.
Proof.
  induction s as [|c t IH]; [reflexivity|].
  destruct (ceq c sep) eqn:E.
  - rewrite split_cons_sep by exact E.
    pose proof (split_nonempty sep t) as Hn.
    simpl. destruct (split sep t); [contradiction | exact IH].
  - rewrite split_cons_other by exact E.
    pose proof (split_nonempty sep t) as Hn.
    destruct (split sep t) as [|l [|l' ls]]; [contradiction | | ].
    + simpl in *. unfold ceq in *. rewrite N.eqb_sym, E. exact IH.
    + exact IH.
Qed.

(** Splitting a text given in two parts: the complete lines of the first
    part, then the split of its unfinished line followed by the second. *)
Lemma split_app sep x y :
  split sep (x ++ y) =
  removelast (split sep x) ++ split sep (last (split sep x) [] ++ y).
Proof.
  induction x as [|c t IH]; [reflexivity|].
  pose proof (split_nonempty sep t) as Hn.
  rewrite <- app_comm_cons.
  destruct (ceq c sep) eqn:E.
  - rewrite !split_cons_sep by exact E. rewrite IH.
    destruct (split sep t) as [|l ls]; [contradiction | reflexivity].
  - rewrite !split_cons_other by exact E. rewrite IH.
    destruct (split sep t) as [|l [|l' ls]]; [contradiction | | ].
    + cbn [removelast last hd tl app].
      now rewrite split_cons_other by exact E.
    + reflexivity.
Qed.

(* ===================================================================== *)
(** ** What the loop leaves alone *)
(* ===================================================================== *)

(** The cases of a pass that ran [H : iteration final m = Some m'], for a
    machine given by its fields [p] (the pending lines) and [t] (the
    table). *)
Ltac iteration_cases H p t :=
  unfold iteration, iterationBody in H; simpl in H;
  destruct p as [|?line [|?sep ?rest]]; [discriminate H | |];
  (destruct t as [?table|]; simpl in H;
   split_tests_in H; inversion H; subst; clear H).

Lemma iteration_buffer final m m' :
  iteration final m = Some m' -> buffer (state m') = buffer (state m).
Proof.
  destruct m as [[b p c t] w]. intros H.
  iteration_cases H p t; reflexivity.
Qed.

Lemma processPending_buffer final m :
  buffer (state (processPending final m)) = buffer (state m).
Proof.
  induction m as [m IH] using (processPending_ind final).
  rewrite processPending_unfold.
  destruct (iteration final m) as [m'|] eqn:E; [|reflexivity].
  rewrite (IH m' eq_refl). now apply iteration_buffer with final.
Qed.

(** C9.  When [write] returns, and when [flush] returns, [buffer] holds no
    newline character (after [flush] it is empty). *)
Theorem buffer_never_holds_newline (chunk : jsstring) (m : Machine) :
  includes LF (buffer (state (write chunk m))) = false
  /\ buffer (state (flush m)) = []
  /\ includes LF (buffer (state (flush m))) = false.
Proof.
  assert (Hflush : buffer (state (flush m)) = []).
  { unfold flush.
    set (m1 := run (moveBuffer m) m).
    assert (H1 : buffer (state m1) = []).
    { unfold m1, moveBuffer. destruct m as [[b p c t] w]; simpl.
      destruct b; reflexivity. }
    set (m2 := processPending true m1).
    assert (H2 : buffer (state m2) = [])
      by (unfold m2; now rewrite processPending_buffer).
    set (m3 := run (closeTable m2) m2).
    assert (H3 : buffer (state m3) = []).
    { unfold m3, closeTable. destruct (tableState (state m2)); exact H2. }
    unfold closeCodeBlock. destruct (inCodeBlock (state m3)); exact H3. }
  split; [|split].
  - unfold write. rewrite processPending_buffer. simpl.
    apply split_last_clean.
  - exact Hflush.
  - now rewrite Hflush.
Qed.

(* ===================================================================== *)
(** ** The passes of the loop, case by case *)
(* ===================================================================== *)

Lemma isTableSeparator_empty : isTableSeparator [] = false.
Proof. reflexivity. Qed.

Lemma separator_test sep :
  negb (isEmpty sep) && isTableSeparator sep = isTableSeparator sep.
Proof. destruct sep; [reflexivity | apply andb_true_l]. Qed.

Lemma processPending_stops final m :
  iteration final m = None -> processPending final m = m.
Proof. intros H. rewrite processPending_unfold. now rewrite H. Qed.

(** C6.  In a reachable state with the code block open, a pass of the loop
    consumes the head line; a line that is not a fence is handed to the
    sink as it is, followed by a newline (the inline styler is not
    called), and the block stays open; a fence line closes the block and
    the style reset, with a newline, is handed to the sink. *)
Theorem code_block_passthrough (final : bool) (m : Machine)
    (line : jsstring) (rest : list jsstring) :
  reachable m ->
  inCodeBlock (state m) = true ->
  pendingLines (state m) = line :: rest ->
  iteration final m =
  Some {| state := {| buffer := buffer (state m);
                      pendingLines := rest;
                      inCodeBlock := negb (isFence line);
                      tableState := None |};
          written := written m
                     ++ [if isFence line then ansi.codeOff ++ newline
                         else line ++ newline] |}.
Proof.
  intros Hr Hc Hp.
  pose proof (reachable_exclusive _ Hr) as Hx. unfold exclusive in Hx.
  destruct m as [[b p c t] w]; simpl in *. subst p c.
  destruct t; [discriminate|].
  unfold iteration, iterationBody; simpl.
  destruct (isFence line); reflexivity.
Qed.

(** The theorem on a stream: after a fence line, a line of Markdown is
    pending; the pass hands it over unstyled.  The whole stream
    [fence, **not bold**, fence] renders to the style start, the line as it
    is, and the style reset. *)
Lemma code_block_passthrough_witness :
  let opened := write (str "```" ++ newline) createMarkdownRenderer in
  let line := str "**not bold**" in
  let m := run (receive (line ++ newline) opened) opened in
  (reachable m /\ inCodeBlock (state m) = true
   /\ pendingLines (state m) = [line])
  /\ iteration false m =
     Some {| state := {| buffer := []; pendingLines := [];
                         inCodeBlock := true; tableState := None |};
             written := [ansi.codeOn ++ newline; line ++ newline] |}
  /\ render [str "```" ++ newline ++ line ++ newline ++ str "```"]
     = [ansi.codeOn ++ newline; line ++ newline; ansi.codeOff ++ newline].
Proof.
  intros opened line m.
  assert (Hr : reachable m).
  { apply reachable_block; [|constructor].
    apply reachable_write, reach_fresh. }
  split; [split; [exact Hr | split; reflexivity]|].
  split; [|reflexivity].
  exact (code_block_passthrough false m line [] Hr eq_refl eq_refl).
Defined.

(** The machine with the given pending lines, everything else as in [m]. *)
Definition pendingOnly (lines : list jsstring) : Machine :=
  setPendingLines lines createMarkdownRenderer.

(** C4, as stated, fails on a fence line that contains a pipe: with that
    line alone pending, in NORMAL mode and not final, the loop does not
    stop; the fence test comes first, the code block is opened and the
    line is consumed.  The stream that leads there is the one chunk
    [```|] followed by a newline. *)
Lemma table_candidate_fence_counterexample :
  let line := str "```|" in
  let m := pendingOnly [line] in
  m = run (receive (line ++ newline) createMarkdownRenderer)
        createMarkdownRenderer
  /\ tableState (state m) = None /\ inCodeBlock (state m) = false
  /\ isTableRow line = true
  /\ (List.length (pendingLines (state m)) <? 2) && negb false = true
  /\ iteration false m <> None
  /\ processPending false m =
     {| state := {| buffer := []; pendingLines := [];
                    inCodeBlock := true; tableState := None |};
        written := [ansi.codeOn ++ newline] |}.
Proof.
  repeat split; try reflexivity. discriminate.
Qed.

(** C4, amended.  In NORMAL mode, when the head pending line contains a
    pipe and is not a fence line: with fewer than two pending lines and
    not in final mode the loop stops and the state is left as it is (the
    line stays pending); otherwise, if the second pending line is a
    separator line, a table is begun with the cells of the head line as
    its header and no rows, both lines are consumed and nothing is handed
    to the sink; if there is no second line or it is not a separator line,
    only the head line is consumed and handed to the sink as a generic
    line. *)
Theorem table_candidate (final : bool) (m : Machine)
    (line : jsstring) (rest : list jsstring) :
  tableState (state m) = None ->
  inCodeBlock (state m) = false ->
  pendingLines (state m) = line :: rest ->
  isTableRow line = true ->
  isFence line = false ->
  let generic :=
    {| state := {| buffer := buffer (state m); pendingLines := rest;
                   inCodeBlock := false; tableState := None |};
       written := written m ++ [renderLine line ++ newline] |} in
  if (List.length (line :: rest) <? 2) && negb final
  then iteration final m = None /\ processPending final m = m
  else
    match rest with
    | separator :: rest' =>
        if isTableSeparator separator
        then iteration final m =
             Some {| state := {| buffer := buffer (state m);
                                 pendingLines := rest';
                                 inCodeBlock := false;
                                 tableState :=
                                   Some {| header := parseTableRow line;
                                           rows := [] |} |};
                     written := written m |}
        else iteration final m = Some generic
    | [] => iteration final m = Some generic
    end.
Proof.
  intros Ht Hc Hp Hrow Hfence generic.
  destruct m as [[b p c t] w]; simpl in *. subst t c p.
  assert (E : forall f, iterationBody f
     {| state := {| buffer := b; pendingLines := line :: rest;
                    inCodeBlock := false; tableState := None |};
        written := w |} =
     if (List.length (line :: rest) <? 2) && negb f then None
     else match nth_error (line :: rest) 1 with
          | Some separator =>
              if isTableSeparator separator
              then Some [setTableState
                           (Some {| header := parseTableRow line;
                                    rows := [] |}); shift; shift]
              else Some [shift; writer (renderLine line ++ newline)]
          | None => Some [shift; writer (renderLine line ++ newline)]
          end).
  { intros f. unfold iterationBody.
    cbn [state pendingLines tableState inCodeBlock].
    rewrite Hfence, Hrow.
    destruct ((List.length (line :: rest) <? 2) && negb f); [reflexivity|].
    destruct (nth_error (line :: rest) 1) as [separator|]; [|reflexivity].
    now rewrite separator_test. }
  destruct rest as [|separator rest'].
  - destruct final; cbn [List.length Nat.ltb Nat.leb negb andb].
    + unfold iteration. rewrite E. reflexivity.
    + assert (Hnone : iteration false
         {| state := {| buffer := b; pendingLines := [line];
                        inCodeBlock := false; tableState := None |};
            written := w |} = None)
        by (unfold iteration; rewrite E; reflexivity).
      split; [exact Hnone | now apply processPending_stops].
  - replace ((List.length (line :: separator :: rest') <? 2) && negb final)
      with false by (now destruct final).
    unfold iteration. rewrite E.
    replace ((List.length (line :: separator :: rest') <? 2) && negb final)
      with false by (now destruct final).
    cbn [nth_error].
    destruct (isTableSeparator separator); reflexivity.
Qed.

(** The theorem in its three cases: [a|b] alone and not final; [a|b]
    followed by a separator line; [a|b] followed by another row. *)
Lemma table_candidate_witness :
  (iteration false (pendingOnly [str "a|b"]) = None
   /\ processPending false (pendingOnly [str "a|b"]) = pendingOnly [str "a|b"])
  /\ iteration false (pendingOnly [str "a|b"; str "-|-"; str "1|2"]) =
     Some {| state := {| buffer := []; pendingLines := [str "1|2"];
                         inCodeBlock := false;
                         tableState := Some {| header := [str "a"; str "b"];
                                               rows := [] |} |};
             written := [] |}
  /\ iteration false (pendingOnly [str "a|b"; str "c|d"]) =
     Some {| state := {| buffer := []; pendingLines := [str "c|d"];
                         inCodeBlock := false; tableState := None |};
             written := [str "a|b" ++ newline] |}.
Proof.
  split; [|split].
  - exact (table_candidate false (pendingOnly [str "a|b"]) (str "a|b") []
             eq_refl eq_refl eq_refl eq_refl eq_refl).
  - exact (table_candidate false
             (pendingOnly [str "a|b"; str "-|-"; str "1|2"])
             (str "a|b") [str "-|-"; str "1|2"]
             eq_refl eq_refl eq_refl eq_refl eq_refl).
  - exact (table_candidate false (pendingOnly [str "a|b"; str "c|d"])
             (str "a|b") [str "c|d"]
             eq_refl eq_refl eq_refl eq_refl eq_refl).
Defined.

(* ===================================================================== *)
(** ** Chunk boundaries *)
(* ===================================================================== *)

Lemma receive_run chunk m :
  run (receive chunk m) m =
  push (removelast (split LF (buffer (state m) ++ chunk)))
    (setBuffer (last (split LF (buffer (state m) ++ chunk)) []) m).
Proof. destruct m as [[b p c t] w]. reflexivity. Qed.

Lemma push_push l1 l2 m : push l2 (push l1 m) = push (l1 ++ l2) m.
Proof.
  destruct m as [[b p c t] w]. unfold push, setPendingLines; simpl.
  now rewrite app_assoc.
Qed.

Lemma push_setBuffer l b m : push l (setBuffer b m) = setBuffer b (push l m).
Proof. destruct m as [[b0 p c t] w]. reflexivity. Qed.

Lemma setBuffer_setBuffer b1 b2 m : setBuffer b2 (setBuffer b1 m) = setBuffer b2 m.
Proof. destruct m as [[b0 p c t] w]. reflexivity. Qed.

(** The loop does not read the buffer. *)
Lemma iteration_setBuffer final b m :
  iteration final (setBuffer b m) =
  match iteration final m with
  | Some m' => Some (setBuffer b m')
  | None => None
  end.
Proof.
  destruct m as [[b0 p c t] w].
  unfold iteration, iterationBody; simpl.
  destruct p as [|line [|sep rest]]; [reflexivity | |];
    destruct t as [table|]; simpl; split_tests; reflexivity.
Qed.

Lemma processPending_setBuffer final b m :
  processPending final (setBuffer b m) = setBuffer b (processPending final m).
Proof.
  induction m as [m IH] using (processPending_ind final).
  rewrite (processPending_unfold final m),
          (processPending_unfold final (setBuffer b m)).
  rewrite iteration_setBuffer.
  destruct (iteration final m) as [m'|]; [|reflexivity].
  now apply IH.
Qed.

(** A pass that could run without [final] runs the same, in either mode,
    when more lines are waiting behind. *)
Lemma iteration_push final more m m' :
  iteration false m = Some m' ->
  iteration final (push more m) = Some (push more m').
Proof.
  destruct m as [[b p c t] w]. intros H.
  iteration_cases H p t;
    unfold iteration, iterationBody; simpl;
    repeat match goal with
           | E : ?x = _ |- context [?x] => rewrite E
           end;
    reflexivity.
Qed.

Lemma processPending_push final more m :
  processPending final (push more (processPending false m)) =
  processPending final (push more m).
Proof.
  induction m as [m IH] using (processPending_ind false).
  rewrite (processPending_unfold false m).
  destruct (iteration false m) as [m'|] eqn:E; [|reflexivity].
  rewrite (IH m' eq_refl).
  rewrite (processPending_unfold final (push more m)).
  now rewrite (iteration_push final more m m' E).
Qed.

Lemma removelast_last_app {A} (l1 l2 : list A) (d : A) :
  l2 <> [] ->
  removelast (l1 ++ l2) = l1 ++ removelast l2 /\ last (l1 ++ l2) d = last l2 d.
Proof.
  intros H. split; [now apply removelast_app|].
  induction l1 as [|a l1 IH]; [reflexivity|].
  simpl. destruct (l1 ++ l2) eqn:E; [|exact IH].
  apply app_eq_nil in E. now destruct E.
Qed.

(** Two [write] calls are one [write] of the two chunks together. *)
Lemma write_write c1 c2 m : write c2 (write c1 m) = write (c1 ++ c2) m.
Proof.
  unfold write at 1 3. rewrite !receive_run.
  set (b := buffer (state m)).
  assert (Hb : buffer (state (write c1 m)) = last (split LF (b ++ c1)) []).
  { unfold write. rewrite processPending_buffer, receive_run.
    destruct m as [[b0 p c t] w]. reflexivity. }
  rewrite Hb.
  set (L1 := split LF (b ++ c1)). set (L2 := split LF (last L1 [] ++ c2)).
  assert (HL : split LF (b ++ c1 ++ c2) = removelast L1 ++ L2)
    by (rewrite app_assoc; apply split_app).
  rewrite HL.
  destruct (removelast_last_app (removelast L1) L2 (@nil char)
              (split_nonempty _ _)) as [Hr Hl].
  rewrite Hr, Hl.
  unfold write. rewrite receive_run. fold b L1.
  rewrite <- (processPending_setBuffer false (last L2 [])).
  rewrite processPending_push.
  rewrite <- push_setBuffer, setBuffer_setBuffer.
  now rewrite push_push.
Qed.

Lemma write_empty_fresh :
  write [] createMarkdownRenderer = createMarkdownRenderer.
Proof. reflexivity. Qed.

Lemma writeAll_concat chunks m :
  chunks <> [] -> writeAll chunks m = write (List.concat chunks) m.
Proof.
  revert m. induction chunks as [|c1 [|c2 chunks] IH]; intros m H.
  - contradiction.
  - simpl. now rewrite app_nil_r.
  - change (writeAll (c1 :: c2 :: chunks) m)
      with (writeAll (c2 :: chunks) (write c1 m)).
    rewrite IH by discriminate.
    change (List.concat (c1 :: c2 :: chunks))
      with (c1 ++ List.concat (c2 :: chunks)).
    apply write_write.
Qed.

(** C1.  A text fed in any number of chunks, split anywhere, then [flush],
    hands the sink the same strings, in the same order, as the text fed in
    one [write] call, then [flush]; so the concatenated output is the same
    too.  The renderer even ends in the same state. *)
Theorem chunking_is_invisible (chunks : list jsstring) :
  let S := List.concat chunks in
  render chunks = render [S]
  /\ List.concat (render chunks) = List.concat (render [S])
  /\ flush (writeAll chunks createMarkdownRenderer)
     = flush (write S createMarkdownRenderer).
Proof.
  intros S.
  assert (H : writeAll chunks createMarkdownRenderer
              = write S createMarkdownRenderer).
  { destruct chunks as [|c chunks].
    - symmetry. exact write_empty_fresh.
    - apply writeAll_concat. discriminate. }
  unfold render. simpl writeAll at 2 3. rewrite H.
  repeat split.
Qed.

(* ===================================================================== *)
(** ** The tested regular expressions decide their languages *)
(* ===================================================================== *)

Lemma nullable_lang r : nullable r = true <-> lang r [].
Proof.
  split.
  - induction r as [| | p | a IHa b IHb | a IHa b IHb | a IHa]; simpl;
      intros H; try discriminate.
    + constructor.
    + apply andb_prop in H. destruct H as [Ha Hb].
      change (@nil char) with (@nil char ++ []).
      constructor; auto.
    + apply orb_prop in H. destruct H as [Ha | Hb].
      * apply L_alt_l; auto.
      * apply L_alt_r; auto.
    + constructor.
  - intros H. remember (@nil char) as s eqn:Hs.
    induction H as [| p c Hp | a b s t Ha IHa Hb IHb | a b s Ha IHa
                    | a b s Hb IHb | a | a s t Ha IHa Hs' IHs];
      simpl; try reflexivity; try discriminate.
    + apply app_eq_nil in Hs. destruct Hs as [-> ->].
      now rewrite IHa, IHb.
    + now rewrite IHa.
    + rewrite IHb by assumption. apply orb_true_r.
Qed.

Lemma deriv_sound c r s : lang (deriv c r) s -> lang r (c :: s).
Proof.
  revert s.
  induction r as [| | p | a IHa b IHb | a IHa b IHb | a IHa]; simpl; intros s H.
  - inversion H.
  - inversion H.
  - destruct (p c) eqn:Hp; inversion H; subst. now constructor.
  - destruct (nullable a) eqn:Hn.
    + inversion H as [| | | ? ? ? Hl | ? ? ? Hr | |]; subst.
      * inversion Hl as [| | ? ? s1 s2 H1 H2 | | | |]; subst.
        change (c :: s1 ++ s2) with ((c :: s1) ++ s2).
        constructor; auto.
      * change (c :: s) with ([] ++ c :: s).
        constructor; [now apply nullable_lang | auto].
    + inversion H as [| | ? ? s1 s2 H1 H2 | | | |]; subst.
      change (c :: s1 ++ s2) with ((c :: s1) ++ s2).
      constructor; auto.
  - inversion H; subst; [apply L_alt_l | apply L_alt_r]; auto.
  - inversion H as [| | ? ? s1 s2 H1 H2 | | | |]; subst.
    change (c :: s1 ++ s2) with ((c :: s1) ++ s2).
    constructor; auto.
Qed.

Lemma deriv_complete c r s : lang r (c :: s) -> lang (deriv c r) s.
Proof.
  intros H. remember (c :: s) as w eqn:Hw. revert c s Hw.
  induction H as [| p x Hp | a b s1 t1 Ha IHa Hb IHb | a b s1 Ha IHa
                  | a b s1 Hb IHb | a | a s1 t1 Ha IHa Hs IHs];
    intros c s Hw; simpl.
  - discriminate.
  - inversion Hw; subst. rewrite Hp. constructor.
  - destruct s1 as [|x s1'].
    + simpl in Hw. subst t1.
      apply nullable_lang in Ha. rewrite Ha.
      apply L_alt_r. now apply IHb.
    + inversion Hw; subst.
      assert (Hd : lang (Seq (deriv c a) b) (s1' ++ t1))
        by (constructor; [now apply IHa | exact Hb]).
      destruct (nullable a); [now apply L_alt_l | exact Hd].
  - apply L_alt_l. now apply IHa.
  - apply L_alt_r. now apply IHb.
  - discriminate.
  - destruct s1 as [|x s1'].
    + simpl in Hw. now apply IHs.
    + inversion Hw; subst.
      constructor; [now apply IHa | exact Hs].
Qed.

Theorem matches_lang r s : matches r s = true <-> lang r s.
Proof.
  revert r. induction s as [|c s IH]; intros r; simpl.
  - apply nullable_lang.
  - rewrite IH. split; [apply deriv_sound | apply deriv_complete].
Qed.

(* ===================================================================== *)
(** ** Separator lines *)
(* ===================================================================== *)

Definition blank (s : jsstring) : Prop := Forall (fun c => isSpace c = true) s.

Definition optional (c : char) (present : bool) : jsstring :=
  if present then [c] else [].

(** White space, an optional colon, one or more dashes, an optional colon,
    white space. *)
Inductive dashCell : jsstring -> Prop :=
| dash_cell : forall w1 (l : bool) n (r : bool) w2,
    blank w1 -> blank w2 ->
    dashCell (w1 ++ optional COLON l ++ repeat DASH (S n)
                 ++ optional COLON r ++ w2).

(** Two or more dash cells with a pipe between neighbours; white space and
    one pipe may come before the first, one pipe and white space after the
    last. *)
Inductive separatorShape : jsstring -> Prop :=
| separator_shape : forall lead (lp : bool) cells lastCell (tp : bool) trail,
    blank lead -> cells <> [] -> Forall dashCell cells -> dashCell lastCell ->
    blank trail ->
    separatorShape
      (lead ++ optional PIPE lp
            ++ List.concat (map (fun cell => cell ++ [PIPE]) cells)
            ++ lastCell ++ optional PIPE tp ++ trail).

(** A dash, a colon, a pipe or white space. *)
Definition isSeparatorChar (c : char) : bool :=
  ceq c DASH || ceq c COLON || ceq c PIPE || isSpace c.

Lemma ceq_eq a b : ceq a b = true <-> a = b.
Proof. apply N.eqb_eq. Qed.

Lemma lang_seq a b s :
  lang (Seq a b) s <-> exists s1 s2, s = s1 ++ s2 /\ lang a s1 /\ lang b s2.
Proof.
  split.
  - intros H. inversion H; subst. eauto.
  - intros (s1 & s2 & -> & H1 & H2). now constructor.
Qed.

Lemma lang_star_pieces r s :
  lang (Star r) s <-> exists xs, Forall (lang r) xs /\ s = List.concat xs.
Proof.
  split.
  - intros H. remember (Star r) as q eqn:Hq.
    induction H as [| | | | | a | a s t Ha _ Hs IHs]; try discriminate.
    + exists []. split; [constructor | reflexivity].
    + inversion Hq; subst. destruct (IHs eq_refl) as (xs & Hxs & ->).
      exists (s :: xs). split; [now constructor | reflexivity].
  - intros (xs & Hxs & ->).
    induction Hxs as [|x xs Hx _ IH]; simpl; now constructor.
Qed.

Lemma lang_plus_pieces r s :
  lang (Plus r) s <->
  exists xs, xs <> [] /\ Forall (lang r) xs /\ s = List.concat xs.
Proof.
  unfold Plus. rewrite lang_seq. split.
  - intros (s1 & s2 & -> & H1 & H2).
    apply lang_star_pieces in H2. destruct H2 as (xs & Hxs & ->).
    exists (s1 :: xs). split; [discriminate|]. split; [now constructor|reflexivity].
  - intros (xs & Hne & Hxs & ->).
    destruct xs as [|x xs]; [contradiction|].
    inversion Hxs; subst.
    exists x, (List.concat xs). split; [reflexivity|]. split; [assumption|].
    apply lang_star_pieces. now exists xs.
Qed.

Lemma lang_cls p s : lang (Cls p) s <-> exists c, p c = true /\ s = [c].
Proof.
  split.
  - intros H. inversion H; subst. eauto.
  - intros (c & Hc & ->). now constructor.
Qed.

Lemma lang_chr c s : lang (Chr c) s <-> s = [c].
Proof.
  unfold Chr. rewrite lang_cls. split.
  - intros (x & Hx & ->). apply ceq_eq in Hx. now subst.
  - intros ->. exists c. split; [now apply ceq_eq | reflexivity].
Qed.

Lemma lang_opt_chr c s : lang (Opt (Chr c)) s <-> exists b, s = optional c b.
Proof.
  unfold Opt. split.
  - intros H. inversion H as [| | | ? ? ? Hl | ? ? ? Hr | |]; subst.
    + apply lang_chr in Hl. subst. now exists true.
    + inversion Hr; subst. now exists false.
  - intros ([|] & ->); simpl.
    + apply L_alt_l. now apply lang_chr.
    + apply L_alt_r. constructor.
Qed.

Lemma concat_singletons {A} (xs : list (list A)) (c : A) :
  Forall (fun x => x = [c]) xs -> List.concat xs = repeat c (List.length xs).
Proof.
  induction 1 as [|x xs Hx _ IH]; [reflexivity|].
  subst x. simpl. now rewrite IH.
Qed.

Lemma lang_plus_chr c s : lang (Plus (Chr c)) s <-> exists n, s = repeat c (S n).
Proof.
  rewrite lang_plus_pieces. split.
  - intros (xs & Hne & Hxs & ->).
    destruct xs as [|x xs]; [contradiction|].
    exists (List.length xs).
    apply (concat_singletons (x :: xs) c).
    eapply Forall_impl; [|exact Hxs]. intros y Hy. now apply lang_chr.
  - intros (n & ->). exists (repeat [c] (S n)).
    split; [discriminate|]. split.
    + apply Forall_forall. intros y Hy. apply repeat_spec in Hy. subst.
      now apply lang_chr.
    + clear. induction n as [|n IH]; [reflexivity|].
      change (repeat c (S (S n))) with (c :: repeat c (S n)).
      rewrite IH. reflexivity.
Qed.

Lemma lang_ws s : lang ws s <-> blank s.
Proof.
  unfold ws, blank. rewrite lang_star_pieces. split.
  - intros (xs & Hxs & ->).
    induction Hxs as [|x xs Hx _ IH]; simpl; [constructor|].
    apply lang_cls in Hx. destruct Hx as (c & Hc & ->).
    now constructor.
  - intros H. exists (map (fun c => [c]) s). split.
    + induction H as [|c s Hc _ IH]; simpl; constructor; [|exact IH].
      apply lang_cls. now exists c.
    + clear. induction s as [|c s IH]; [reflexivity|].
      simpl. now rewrite <- IH.
Qed.

Lemma lang_dashCell s : lang dashCellRe s <-> dashCell s.
Proof.
  unfold dashCellRe. split.
  - intros H.
    apply lang_seq in H. destruct H as (w1 & s1 & -> & Hw1 & H).
    apply lang_seq in H. destruct H as (l & s2 & -> & Hl & H).
    apply lang_seq in H. destruct H as (d & s3 & -> & Hd & H).
    apply lang_seq in H. destruct H as (r & w2 & -> & Hr & Hw2).
    apply lang_ws in Hw1, Hw2.
    apply lang_opt_chr in Hl, Hr. destruct Hl as (bl & ->), Hr as (br & ->).
    apply lang_plus_chr in Hd. destruct Hd as (n & ->).
    now constructor.
  - intros H. destruct H as [w1 l n r w2 Hw1 Hw2].
    repeat (apply L_seq).
    + now apply lang_ws.
    + apply lang_opt_chr. now exists l.
    + apply lang_plus_chr. now exists n.
    + apply lang_opt_chr. now exists r.
    + now apply lang_ws.
Qed.

Theorem separatorRe_shape s : lang separatorRe s <-> separatorShape s.
Proof.
  unfold separatorRe. split.
  - intros H.
    apply lang_seq in H. destruct H as (lead & s1 & -> & Hlead & H).
    apply lang_seq in H. destruct H as (lp & s2 & -> & Hlp & H).
    apply lang_seq in H. destruct H as (g & s3 & -> & Hg & H).
    apply lang_seq in H. destruct H as (lastCell & s4 & -> & Hlast & H).
    apply lang_seq in H. destruct H as (tp & trail & -> & Htp & Htrail).
    apply lang_ws in Hlead, Htrail.
    apply lang_opt_chr in Hlp, Htp. destruct Hlp as (blp & ->), Htp as (btp & ->).
    apply lang_dashCell in Hlast.
    apply lang_plus_pieces in Hg. destruct Hg as (xs & Hne & Hxs & ->).
    assert (Hcells : exists cells,
               Forall dashCell cells
               /\ xs = map (fun cell => cell ++ [PIPE]) cells).
    { clear Hne. induction Hxs as [|x xs Hx _ IH].
      - exists []. split; [constructor | reflexivity].
      - destruct IH as (cells & Hc & ->).
        apply lang_seq in Hx. destruct Hx as (cell & p & -> & Hcell & Hp).
        apply lang_chr in Hp. subst p. apply lang_dashCell in Hcell.
        exists (cell :: cells). split; [now constructor | reflexivity]. }
    destruct Hcells as (cells & Hc & ->).
    constructor; try assumption.
    intros ->. now apply Hne.
  - intros H. destruct H as [lead lp cells lastCell tp trail Hlead Hne Hc Hlast Htrail].
    repeat (apply L_seq).
    + now apply lang_ws.
    + apply lang_opt_chr. now exists lp.
    + apply lang_plus_pieces.
      exists (map (fun cell => cell ++ [PIPE]) cells).
      split; [destruct cells; [contradiction | discriminate]|].
      split; [|reflexivity].
      apply Forall_map. eapply Forall_impl; [|exact Hc].
      intros cell Hcell. apply L_seq; [now apply lang_dashCell | now apply lang_chr].
    + now apply lang_dashCell.
    + apply lang_opt_chr. now exists tp.
    + now apply lang_ws.
Qed.

Lemma blank_chars s : blank s -> forallb isSeparatorChar s = true.
Proof.
  induction 1 as [|c s Hc _ IH]; [reflexivity|].
  simpl. rewrite IH. unfold isSeparatorChar. rewrite Hc.
  now rewrite !orb_true_r.
Qed.

Lemma optional_chars c b :
  isSeparatorChar c = true -> forallb isSeparatorChar (optional c b) = true.
Proof. intros H. destruct b; simpl; [now rewrite H | reflexivity]. Qed.

Lemma dashes_chars n : forallb isSeparatorChar (repeat DASH n) = true.
Proof. induction n as [|n IH]; [reflexivity | exact IH]. Qed.

Lemma dashCell_chars s : dashCell s -> forallb isSeparatorChar s = true.
Proof.
  intros [w1 l n r w2 Hw1 Hw2].
  rewrite !forallb_app.
  rewrite (blank_chars w1 Hw1), (blank_chars w2 Hw2), dashes_chars.
  rewrite !optional_chars by reflexivity.
  reflexivity.
Qed.

Lemma separatorShape_chars s :
  separatorShape s -> forallb isSeparatorChar s = true.
Proof.
  intros [lead lp cells lastCell tp trail Hlead _ Hc Hlast Htrail].
  rewrite !forallb_app.
  rewrite (blank_chars lead Hlead), (blank_chars trail Htrail).
  rewrite (dashCell_chars lastCell Hlast).
  rewrite !optional_chars by reflexivity.
  rewrite andb_true_r. simpl.
  induction Hc as [|cell cells Hcell _ IH]; [reflexivity|].
  simpl. rewrite !forallb_app, (dashCell_chars cell Hcell), IH.
  reflexivity.
Qed.

(** C8, as stated, fails: the lines [---] and [|---|] consist only of
    dashes and pipes, yet neither is classified as a separator line (the
    pattern asks for two dash cells with a pipe between them).  After the
    header [|a|] the line [|---|] therefore begins no table: both lines
    are rendered as generic lines. *)
Lemma separator_alphabet_counterexample :
  (forallb isSeparatorChar (str "---") = true
   /\ isTableSeparator (str "---") = false)
  /\ (forallb isSeparatorChar (str "|---|") = true
      /\ isTableRow (str "|---|") = true
      /\ isTableSeparator (str "|---|") = false)
  /\ render [str "|a|" ++ newline ++ str "|---|" ++ newline]
     = [str "|a|" ++ newline; str "|---|" ++ newline].
Proof. repeat split. Qed.

(** C8, amended.  The lines classified as separator lines are exactly the
    lines made of two or more dash cells (white space, an optional colon,
    one or more dashes, an optional colon, white space) with one pipe
    between neighbours, where white space and one pipe may come before the
    first cell and one pipe and white space after the last.  Such a line
    consists only of dashes, colons, pipes and white space; as the second
    pending line in NORMAL mode, after a line with a pipe that is not a
    fence, it makes that line the header of a new table and both are
    consumed; at the head of the queue in TABLE mode it ends the table,
    which is rendered, and is not added as a data row. *)
Theorem separator_lines (line : jsstring) :
  (isTableSeparator line = true <-> separatorShape line)
  /\ (isTableSeparator line = true ->
      forallb isSeparatorChar line = true
      /\ (forall final b head rest w,
             isTableRow head = true -> isFence head = false ->
             iteration final
               {| state := {| buffer := b;
                              pendingLines := head :: line :: rest;
                              inCodeBlock := false; tableState := None |};
                  written := w |}
             = Some {| state := {| buffer := b; pendingLines := rest;
                                   inCodeBlock := false;
                                   tableState :=
                                     Some {| header := parseTableRow head;
                                             rows := [] |} |};
                       written := w |})
      /\ (forall final b rest c table w,
             iteration final
               {| state := {| buffer := b; pendingLines := line :: rest;
                              inCodeBlock := c; tableState := Some table |};
                  written := w |}
             = Some {| state := {| buffer := b; pendingLines := line :: rest;
                                   inCodeBlock := c; tableState := None |};
                       written := w ++ [renderTable table ++ newline] |})).
Proof.
  assert (Hiff : isTableSeparator line = true <-> separatorShape line).
  { unfold isTableSeparator. rewrite matches_lang. apply separatorRe_shape. }
  split; [exact Hiff|].
  intros Hsep. split; [|split].
  - apply separatorShape_chars. now apply Hiff.
  - intros final b head rest w Hrow Hfence.
    unfold iteration, iterationBody; simpl.
    rewrite Hfence, Hrow, separator_test, Hsep.
    replace ((S (S (List.length rest)) <? 2) && negb final) with false
      by (now destruct final).
    reflexivity.
  - intros final b rest c table w.
    unfold iteration, iterationBody; simpl.
    rewrite Hsep, andb_false_r. reflexivity.
Qed.

(** The theorem at the line [| :-- | --: |]. *)
Lemma separator_lines_witness :
  let line := str "| :-- | --: |" in
  isTableSeparator line = true
  /\ separatorShape line
  /\ forallb isSeparatorChar line = true
  /\ iteration false (pendingOnly [str "a|b"; line; str "1|2"])
     = Some {| state := {| buffer := []; pendingLines := [str "1|2"];
                           inCodeBlock := false;
                           tableState := Some {| header := [str "a"; str "b"];
                                                 rows := [] |} |};
               written := [] |}.
Proof.
  intros line.
  destruct (separator_lines line) as [Hiff Hcons].
  assert (Hsep : isTableSeparator line = true) by reflexivity.
  destruct (Hcons Hsep) as (Hchars & Hnormal & _).
  split; [exact Hsep|]. split; [now apply Hiff|]. split; [exact Hchars|].
  exact (Hnormal false [] (str "a|b") [str "1|2"] [] eq_refl eq_refl).
Defined.

(* ===================================================================== *)
(** ** Stripping escape sequences *)
(* ===================================================================== *)

Lemma dropWhile_length p s : List.length (dropWhile p s) <= List.length s.
Proof.
  induction s as [|c t IH]; simpl; [lia|].
  destruct (p c); simpl; lia.
Qed.

Lemma dropWhile_app_stop p s c r y :
  dropWhile p s = c :: r -> dropWhile p (s ++ y) = c :: r ++ y.
Proof.
  induction s as [|a t IH]; simpl; [discriminate|].
  destruct (p a); [exact IH|].
  intros H. inversion H; subst. reflexivity.
Qed.

Lemma dropWhile_app_all p s y :
  dropWhile p s = [] -> dropWhile p (s ++ y) = dropWhile p y.
Proof.
  induction s as [|a t IH]; simpl; [reflexivity|].
  destruct (p a); [exact IH | discriminate].
Qed.

Lemma matchSgr_shorter b s r rest :
  matchSgr b s = Some (r, rest) ->
  r = [] /\ List.length rest < List.length s.
Proof.
  unfold matchSgr. destruct s as [|e [|br t]]; try discriminate.
  destruct (ceq e ESC && ceq br 91%N); [|discriminate].
  pose proof (dropWhile_length isSgrParam t) as Hl.
  destruct (dropWhile isSgrParam t) as [|m rest']; [discriminate|].
  destruct (ceq m 109%N); [|discriminate].
  intros H. inversion H; subst. simpl in *. split; [reflexivity | lia].
Qed.

Lemma stripAnsi_fuel f1 : forall f2 b1 b2 s,
  List.length s <= f1 -> List.length s <= f2 ->
  replaceAllFrom matchSgr f1 b1 s = replaceAllFrom matchSgr f2 b2 s.
Proof.
  induction f1 as [|f1 IH]; intros f2 b1 b2 s H1 H2.
  - destruct s; [|simpl in H1; lia]. destruct f2; reflexivity.
  - destruct f2 as [|f2].
    + destruct s; [reflexivity | simpl in H2; lia].
    + simpl. change (matchSgr b1 s) with (matchSgr b2 s).
      destruct (matchSgr b2 s) as [[r rest]|] eqn:E.
      * apply matchSgr_shorter in E. destruct E as [-> Hlt].
        simpl. apply IH; lia.
      * destruct s as [|c t]; [reflexivity|].
        simpl in H1, H2. f_equal. apply IH; lia.
Qed.

(** [stripAnsi], one search at a time. *)
Lemma stripAnsi_unfold s :
  stripAnsi s =
  match matchSgr true s with
  | Some (_, rest) => stripAnsi rest
  | None => match s with
            | [] => []
            | c :: t => c :: stripAnsi t
            end
  end.
Proof.
  unfold stripAnsi, replaceAll.
  destruct s as [|c t]; [reflexivity|].
  cbn [List.length replaceAllFrom].
  destruct (matchSgr true (c :: t)) as [[r rest]|] eqn:E.
  - apply matchSgr_shorter in E. destruct E as [-> Hlt]. simpl in Hlt.
    simpl. apply stripAnsi_fuel; lia.
  - f_equal. apply stripAnsi_fuel; lia.
Qed.

(** A character that can neither continue nor end an escape sequence. *)
Definition breaksSgr (c : char) : bool :=
  negb (ceq c 91%N) && negb (isSgrParam c) && negb (ceq c 109%N).

Lemma matchSgr_app_some b x y r rest :
  matchSgr b x = Some (r, rest) -> matchSgr b (x ++ y) = Some (r, rest ++ y).
Proof.
  unfold matchSgr. destruct x as [|e [|br t]]; try discriminate.
  simpl. destruct (ceq e ESC && ceq br 91%N); [|discriminate].
  destruct (dropWhile isSgrParam t) as [|m rest'] eqn:E; [discriminate|].
  rewrite (dropWhile_app_stop _ _ _ _ y E).
  destruct (ceq m 109%N); [|discriminate].
  intros H. inversion H; subst. reflexivity.
Qed.

Lemma matchSgr_app_none b x c y :
  x <> [] -> breaksSgr c = true ->
  matchSgr b x = None -> matchSgr b (x ++ c :: y) = None.
Proof.
  unfold matchSgr, breaksSgr. intros Hx Hc.
  apply andb_prop in Hc. destruct Hc as [Hc Hm].
  apply andb_prop in Hc. destruct Hc as [Hb Hp].
  apply negb_true_iff in Hb, Hp, Hm.
  destruct x as [|e [|br t]]; [contradiction | |]; simpl.
  - intros _. rewrite Hb. now rewrite andb_false_r.
  - destruct (ceq e ESC && ceq br 91%N); [|reflexivity].
    destruct (dropWhile isSgrParam t) as [|m rest'] eqn:E.
    + intros _. rewrite (dropWhile_app_all _ _ (c :: y) E). simpl.
      now rewrite Hp, Hm.
    + rewrite (dropWhile_app_stop _ _ _ _ (c :: y) E).
      destruct (ceq m 109%N); [discriminate | reflexivity].
Qed.

(** Stripping goes through a concatenation whose second part begins with
    such a character. *)
Lemma stripAnsi_app x c y :
  breaksSgr c = true ->
  stripAnsi (x ++ c :: y) = stripAnsi x ++ stripAnsi (c :: y).
Proof.
  intros Hc. remember (List.length x) as n eqn:Hn. revert x Hn.
  induction n as [n IH] using lt_wf_ind. intros x Hn.
  destruct x as [|a t]; [reflexivity|].
  rewrite (stripAnsi_unfold (a :: t)), (stripAnsi_unfold ((a :: t) ++ c :: y)).
  destruct (matchSgr true (a :: t)) as [[r rest]|] eqn:E.
  - rewrite (matchSgr_app_some _ _ (c :: y) _ _ E).
    apply matchSgr_shorter in E. destruct E as [_ Hlt].
    apply (IH (List.length rest)); [lia | reflexivity].
  - rewrite (matchSgr_app_none true (a :: t) c y); [|discriminate|exact Hc|exact E].
    simpl. f_equal.
    apply (IH (List.length t)); [simpl in Hn; lia | reflexivity].
Qed.

Lemma matchSgr_other b c t : ceq c ESC = false -> matchSgr b (c :: t) = None.
Proof.
  intros Hc. unfold matchSgr. destruct t; [reflexivity|]. now rewrite Hc.
Qed.


(* ===================================================================== *)
(** ** Column widths *)
(* ===================================================================== *)

(** The number of columns and the width of a column, said directly: the
    longest row counts, and a row without a cell [i] counts as having an
    empty one there. *)
Definition columnCount (table : TableState) : nat :=
  list_max (map (@List.length jsstring) (header table :: rows table)).

Definition columnWidth (table : TableState) (i : nat) : nat :=
  list_max (3 :: map (fun row : list jsstring => visibleLength (nth i row []))
                     (header table :: rows table)).

Definition columnWidths (table : TableState) : list nat :=
  map (columnWidth table) (seq 0 (columnCount table)).


(** The widths after one more row, as a dense list. *)
Fixpoint mergeRow (widths : list nat) (row : list jsstring) : list nat :=
  match row with
  | [] => widths
  | cell :: row' =>
      Nat.max (Nat.max (hd 0 widths) (visibleLength cell)) 3
      :: mergeRow (tl widths) row'
  end.

Lemma arraySet_dense (pre ws : list nat) v :
  arraySet (map Some (pre ++ ws)) (List.length pre) v
  = map Some (pre ++ v :: tl ws).
Proof.
  induction pre as [|a pre IH]; simpl.
  - destruct ws; reflexivity.
  - rewrite <- IH. destruct (map Some (pre ++ ws)) eqn:E; [|reflexivity].
    destruct pre; [|discriminate]. reflexivity.
Qed.

Lemma arrayGet_dense (pre ws : list nat) :
  match arrayGet (map Some (pre ++ ws)) (List.length pre) with
  | Some w => w
  | None => 0
  end = hd 0 ws.
Proof.
  unfold arrayGet. induction pre as [|a pre IH]; simpl; [|exact IH].
  destruct ws; reflexivity.
Qed.

Lemma measureRow_from (row : list jsstring) : forall pre ws,
  fold_left measureCell
    (combine (seq (List.length pre) (List.length row)) row)
    (map Some (pre ++ ws))
  = map Some (pre ++ mergeRow ws row).
Proof.
  induction row as [|cell row IH]; intros pre ws; [reflexivity|].
  cbn [List.length seq combine fold_left mergeRow].
  unfold measureCell at 2.
  rewrite arrayGet_dense, arraySet_dense.
  fold (visibleLength cell).
  replace (pre ++ Nat.max (Nat.max (hd 0 ws) (visibleLength cell)) 3 :: tl ws)
    with ((pre ++ [Nat.max (Nat.max (hd 0 ws) (visibleLength cell)) 3]) ++ tl ws)
    by (now rewrite <- app_assoc).
  replace (S (List.length pre))
    with (List.length (pre ++ [Nat.max (Nat.max (hd 0 ws) (visibleLength cell)) 3]))
    by (rewrite length_app; simpl; lia).
  rewrite IH. now rewrite <- app_assoc.
Qed.

Lemma measureRow_dense ws row :
  measureRow (map Some ws) row = map Some (mergeRow ws row).
Proof. exact (measureRow_from row [] ws). Qed.

Lemma computeWidths_dense table :
  computeWidths table
  = map Some (fold_left mergeRow (header table :: rows table) []).
Proof.
  unfold computeWidths.
  change (@nil (option nat)) with (map (@Some nat) []).
  generalize (header table :: rows table) (@nil nat).
  intros allRows. induction allRows as [|row allRows IH]; intros ws.
  - reflexivity.
  - cbn [fold_left]. rewrite measureRow_dense. apply IH.
Qed.

Lemma mergeRow_length row : forall ws,
  List.length (mergeRow ws row) = Nat.max (List.length ws) (List.length row).
Proof.
  induction row as [|cell row IH]; intros ws; simpl; [lia|].
  rewrite IH. destruct ws; simpl; lia.
Qed.

Lemma visibleLength_empty : visibleLength [] = 0.
Proof. reflexivity. Qed.

Lemma mergeRow_nth row : forall ws i,
  nth i (mergeRow ws row) 0 =
  if i <? List.length row
  then Nat.max (Nat.max (nth i ws 0) (visibleLength (nth i row []))) 3
  else nth i ws 0.
Proof.
  induction row as [|cell row IH]; intros ws i.
  - reflexivity.
  - destruct i as [|i].
    + simpl. destruct ws; reflexivity.
    + cbn [mergeRow nth List.length]. rewrite IH.
      change (S i <? S (List.length row)) with (i <? List.length row).
      destruct ws; simpl; destruct i; reflexivity.
Qed.

Lemma mergeRow_floor row ws :
  Forall (fun w => 3 <= w) ws -> Forall (fun w => 3 <= w) (mergeRow ws row).
Proof.
  revert ws. induction row as [|cell row IH]; intros ws H; simpl; [exact H|].
  constructor; [lia|]. apply IH. destruct H; [constructor | assumption].
Qed.

Lemma widths_length allRows : forall ws,
  List.length (fold_left mergeRow allRows ws)
  = Nat.max (List.length ws) (list_max (map (@List.length jsstring) allRows)).
Proof.
  induction allRows as [|row allRows IH]; intros ws; simpl; [lia|].
  rewrite IH, mergeRow_length. lia.
Qed.

Lemma widths_floor allRows : forall ws,
  Forall (fun w => 3 <= w) ws ->
  Forall (fun w => 3 <= w) (fold_left mergeRow allRows ws).
Proof.
  induction allRows as [|row allRows IH]; intros ws H; simpl; [exact H|].
  apply IH. now apply mergeRow_floor.
Qed.

Lemma list_max_cons a l : list_max (a :: l) = Nat.max a (list_max l).
Proof. reflexivity. Qed.

Lemma widths_nth allRows i : forall ws,
  Nat.max 3 (nth i (fold_left mergeRow allRows ws) 0)
  = Nat.max (Nat.max 3 (nth i ws 0))
      (list_max (map (fun row : list jsstring => visibleLength (nth i row []))
                     allRows)).
Proof.
  induction allRows as [|row allRows IH]; intros ws; cbn [fold_left map].
  { change (list_max []) with 0. lia. }
  rewrite list_max_cons, IH, mergeRow_nth.
  destruct (i <? List.length row) eqn:E.
  - lia.
  - apply Nat.ltb_ge in E. rewrite (nth_overflow row [] E).
    rewrite visibleLength_empty. lia.
Qed.

Lemma widths_are_columnWidths table :
  fold_left mergeRow (header table :: rows table) [] = columnWidths table.
Proof.
  set (allRows := header table :: rows table).
  assert (Hlen : List.length (fold_left mergeRow allRows []) = columnCount table)
    by (rewrite widths_length; reflexivity).
  apply (nth_ext _ _ 0 0).
  - unfold columnWidths. now rewrite length_map, length_seq.
  - intros i Hi. rewrite Hlen in Hi.
    unfold columnWidths.
    rewrite (nth_indep (map (columnWidth table) (seq 0 (columnCount table)))
               0 (columnWidth table 0))
      by (now rewrite length_map, length_seq).
    rewrite map_nth, seq_nth by exact Hi. cbn [Nat.add].
    pose proof (widths_floor allRows [] (Forall_nil _)) as Hfloor.
    rewrite Forall_forall in Hfloor.
    assert (H3 : 3 <= nth i (fold_left mergeRow allRows []) 0)
      by (apply Hfloor, nth_In; now rewrite Hlen).
    pose proof (widths_nth allRows i []) as Hn.
    unfold columnWidth. fold allRows. rewrite list_max_cons.
    replace (nth i [] 0) with 0 in Hn by (now destruct i). lia.
Qed.

(* ===================================================================== *)
(** ** Rendered cells *)
(* ===================================================================== *)

Lemma dropWhile_run p s c r :
  forallb p s = true -> p c = false -> dropWhile p (s ++ c :: r) = c :: r.
Proof.
  intros Hs Hc. induction s as [|a s IH]; simpl in *.
  - now rewrite Hc.
  - apply andb_prop in Hs. destruct Hs as [Ha Hs]. rewrite Ha. now apply IH.
Qed.

Lemma matchSgr_sequence b params rest :
  forallb isSgrParam params = true ->
  matchSgr b (ESC :: 91%N :: params ++ 109%N :: rest) = Some ([], rest).
Proof.
  intros H. unfold matchSgr.
  change (ceq ESC ESC && ceq 91%N 91%N) with true. cbv iota.
  rewrite dropWhile_run by (exact H || reflexivity).
  reflexivity.
Qed.

Lemma sgr_shape code :
  ansi.sgr code = ESC :: 91%N :: str code ++ [109%N].
Proof. reflexivity. Qed.

Lemma stripAnsi_sgr code rest :
  forallb isSgrParam (str code) = true ->
  stripAnsi (ansi.sgr code ++ rest) = stripAnsi rest.
Proof.
  intros H. rewrite sgr_shape.
  replace ((ESC :: 91%N :: str code ++ [109%N]) ++ rest)
    with (ESC :: 91%N :: str code ++ 109%N :: rest)
    by (simpl; now rewrite <- app_assoc).
  rewrite stripAnsi_unfold.
  now rewrite (matchSgr_sequence true (str code) rest H).
Qed.











Lemma computeWidths_columnWidths table :
  computeWidths table = map Some (columnWidths table).
Proof. rewrite computeWidths_dense. f_equal. apply widths_are_columnWidths. Qed.

(** The widths [renderTable] computes: an array without holes, one entry
    per column, where the number of columns is the largest number of cells
    of any row, header or data (so at least that of the header), and the
    width of column [i] is the largest visible length (inline-styled, escape
    sequences stripped) of a cell [i], a row without one counting as
    empty, and at least 3. *)
Theorem computeWidths_columns (table : TableState) :
  computeWidths table = map Some (columnWidths table)
  /\ List.length (columnWidths table) = columnCount table
  /\ List.length (header table) <= columnCount table
  /\ Forall (fun row => List.length row <= columnCount table) (rows table)
  /\ Forall (fun w => 3 <= w) (columnWidths table).
Proof.
  split; [|split; [|split; [|split]]].
  - apply computeWidths_columnWidths.
  - unfold columnWidths. now rewrite length_map, length_seq.
  - unfold columnCount. cbn [map]. rewrite list_max_cons. lia.
  - unfold columnCount. cbn [map]. rewrite list_max_cons.
    induction (rows table) as [|row l IH]; constructor.
    + cbn [map]. rewrite list_max_cons. lia.
    + eapply Forall_impl; [|exact IH]. cbn [map]. intros r Hr.
      rewrite list_max_cons. lia.
  - rewrite <- widths_are_columnWidths. apply widths_floor. constructor.
Qed.

(** A data row longer than the header adds a column: the stream [A|B],
    [-|-], [1|2|3] builds a table with a header of two cells that is
    rendered with three columns. *)
Example longer_row_adds_column :
  let table := {| header := [str "A"; str "B"];
                  rows := [[str "1"; str "2"; str "3"]] |} in
  tableState (state (write (str "A|B" ++ newline ++ str "-|-" ++ newline
                            ++ str "1|2|3" ++ newline)
                       createMarkdownRenderer)) = Some table
  /\ List.length (header table) = 2
  /\ computeWidths table = [Some 3; Some 3; Some 3].
Proof. vm_compute. repeat split. Qed.




(* ===================================================================== *)
(** ** What reaches the sink *)
(* ===================================================================== *)

(** A string handed to the sink that ends with the newline. *)
Definition terminated (data : jsstring) : Prop :=
  exists body, data = body ++ newline.

(** A statement that leaves the sink alone or hands it such a string. *)
Inductive tidy : statement -> Prop :=
| tidy_writer : forall body, tidy (writer (body ++ newline))
| tidy_silent : forall s, (forall m, written (s m) = written m) -> tidy s.

Lemma pushRow_written row m : written (pushRow row m) = written m.
Proof. unfold pushRow. now destruct (tableState (state m)). Qed.

Ltac tidy_block :=
  repeat (apply Forall_cons;
          [first [ apply tidy_writer
                 | apply (tidy_writer ansi.codeOn)
                 | apply (tidy_writer ansi.codeOff)
                 | apply tidy_silent; intros; apply pushRow_written
                 | apply tidy_silent; intros; reflexivity ]|]);
  try apply Forall_nil.

Lemma Some_injective {A} (a b : A) : Some a = Some b -> a = b.
Proof. congruence. Qed.

Lemma iterationBody_tidy final m body :
  iterationBody final m = Some body -> Forall tidy body.
Proof.
  unfold iterationBody. intros H.
  destruct (pendingLines (state m)) as [|line rest]; [discriminate|].
  destruct (tableState (state m)) as [table|];
    split_tests_in H;
    first [discriminate H | apply Some_injective in H; subst body];
    tidy_block.
Qed.

Lemma block_tidy m body : blockAt m body -> Forall tidy body.
Proof.
  intros [chunk | final body' Hbody | | | ].
  - unfold receive. tidy_block.
  - now apply iterationBody_tidy with final m.
  - unfold moveBuffer. destruct (negb (isEmpty (buffer (state m)))); tidy_block.
  - unfold closeTable. destruct (tableState (state m)); tidy_block.
  - unfold closeCodeBlock. destruct (inCodeBlock (state m)); tidy_block.
Qed.

Lemma run_tidy body : forall m,
  Forall tidy body ->
  exists more, written (run body m) = written m ++ more
               /\ Forall terminated more.
Proof.
  induction body as [|s body IH]; intros m H.
  - exists []. split; [now rewrite app_nil_r | constructor].
  - inversion H as [|? ? Hs Hbody]; subst.
    destruct (IH (s m) Hbody) as (more & Hw & Hmore).
    change (run (s :: body) m) with (run body (s m)). rewrite Hw.
    destruct Hs as [data | s Hsilent].
    + exists ((data ++ newline) :: more). split.
      * simpl. now rewrite <- app_assoc.
      * constructor; [now exists data | exact Hmore].
    + exists more. split; [now rewrite Hsilent | exact Hmore].
Qed.

Lemma firstn_tidy k : forall body, Forall tidy body -> Forall tidy (firstn k body).
Proof.
  induction k as [|k IH]; intros body H; [constructor|].
  destruct H; simpl; constructor; auto.
Qed.

(** Every string the renderer ever hands to the sink ends with a newline:
    in every state it passes through, starting fresh, all of [written]
    does. *)
Theorem sink_strings_end_with_newline (m : Machine) :
  reachable m -> Forall (fun data => exists body, data = body ++ [LF]) (written m).
Proof.
  induction 1 as [|m body k _ IH Hb].
  - constructor.
  - destruct (run_tidy (firstn k body) m) as (more & Hw & Hmore).
    { apply firstn_tidy. now apply block_tidy with m. }
    rewrite Hw. apply Forall_app. split; [exact IH | exact Hmore].
Qed.

Lemma sink_strings_end_with_newline_witness :
  let m := flush (write (str "# T" ++ newline ++ str "a|b" ++ newline
                         ++ str "-|-" ++ newline ++ str "```")
                   createMarkdownRenderer) in
  reachable m
  /\ List.length (written m) = 4
  /\ Forall (fun data => exists body, data = body ++ [LF]) (written m).
Proof.
  intros m.
  assert (Hr : reachable m)
    by (apply reachable_flush, reachable_write, reach_fresh).
  split; [exact Hr|]. split; [vm_compute; reflexivity|].
  exact (sink_strings_end_with_newline m Hr).
Defined.

(** The sink only grows. *)
Lemma iteration_appends final m m' :
  iteration final m = Some m' -> exists more, written m' = written m ++ more.
Proof.
  unfold iteration. intros H.
  destruct (iterationBody final m) as [body|] eqn:E; [|discriminate].
  inversion H; subst.
  destruct (run_tidy body m (iterationBody_tidy final m body E)) as (more & Hw & _).
  now exists more.
Qed.

Lemma processPending_appends final m :
  exists more, written (processPending final m) = written m ++ more.
Proof.
  induction m as [m IH] using (processPending_ind final).
  rewrite processPending_unfold.
  destruct (iteration final m) as [m'|] eqn:E.
  - destruct (IH m' eq_refl) as (more' & H').
    destruct (iteration_appends final m m' E) as (more & H).
    exists (more ++ more'). now rewrite H', H, app_assoc.
  - exists []. now rewrite app_nil_r.
Qed.

Lemma block_appends m body :
  blockAt m body -> exists more, written (run body m) = written m ++ more.
Proof.
  intros Hb. destruct (run_tidy body m (block_tidy m body Hb)) as (more & Hw & _).
  now exists more.
Qed.

Lemma flush_appends m : exists more, written (flush m) = written m ++ more.
Proof.
  unfold flush.
  destruct (block_appends m _ (at_moveBuffer m)) as (l1 & H1).
  set (m1 := run (moveBuffer m) m) in *.
  destruct (processPending_appends true m1) as (l2 & H2).
  set (m2 := processPending true m1) in *.
  destruct (block_appends m2 _ (at_closeTable m2)) as (l3 & H3).
  set (m3 := run (closeTable m2) m2) in *.
  destruct (block_appends m3 _ (at_closeCodeBlock m3)) as (l4 & H4).
  exists (l1 ++ l2 ++ l3 ++ l4).
  rewrite H4, H3, H2, H1. now rewrite <- !app_assoc.
Qed.

(* ===================================================================== *)
(** ** What waits, and what [flush] leaves *)
(* ===================================================================== *)

Lemma iteration_waits m :
  iteration false m = None ->
  pendingLines (state m) = []
  \/ exists line,
       pendingLines (state m) = [line]
       /\ isTableRow line = true /\ isFence line = false
       /\ tableState (state m) = None /\ inCodeBlock (state m) = false.
Proof.
  unfold iteration. intros H.
  destruct (iterationBody false m) as [body|] eqn:E; [discriminate|]. clear H.
  unfold iterationBody in E.
  destruct (pendingLines (state m)) as [|line rest]; [now left|]. right.
  destruct (tableState (state m)) as [table|];
    split_tests_in E; try discriminate E.
  exists line. destruct rest as [|l rest]; [|discriminate].
  repeat split; assumption.
Qed.

(** The look-ahead is one line: when [write] returns, either no line is
    pending, or exactly one is, and that one is a table candidate (it has a
    pipe and is not a fence) waiting in NORMAL mode for the line after it. *)
Theorem at_most_one_line_waits (chunk : jsstring) (m : Machine) :
  pendingLines (state (write chunk m)) = []
  \/ exists line,
       pendingLines (state (write chunk m)) = [line]
       /\ isTableRow line = true /\ isFence line = false
       /\ tableState (state (write chunk m)) = None
       /\ inCodeBlock (state (write chunk m)) = false.
Proof. apply iteration_waits. unfold write. apply processPending_exits. Qed.

Lemma flush_state m : state (flush m) = createInitialState.
Proof.
  unfold flush.
  set (d := processPending true (run (moveBuffer m) m)).
  assert (Hb : buffer (state d) = []).
  { unfold d. rewrite processPending_buffer.
    destruct m as [[b p c t] w]. unfold moveBuffer; simpl.
    destruct b; reflexivity. }
  assert (Hp : pendingLines (state d) = [])
    by (apply iteration_final_none, processPending_exits).
  destruct d as [[b p c t] w]; simpl in *. subst b p.
  unfold closeTable, closeCodeBlock; simpl.
  destruct t, c; reflexivity.
Qed.

Lemma flush_fresh w :
  flush {| state := createInitialState; written := w |}
  = {| state := createInitialState; written := w |}.
Proof.
  unfold flush. cbn [moveBuffer createInitialState state buffer isEmpty negb run fold_left].
  rewrite processPending_stops by reflexivity. reflexivity.
Qed.

(** A second [flush] does nothing: the first one leaves the initial state,
    with nothing buffered, pending or open, so the second one hands
    nothing to the sink and changes nothing. *)
Theorem flush_twice (m : Machine) :
  state (flush m) = createInitialState /\ flush (flush m) = flush m.
Proof.
  split; [apply flush_state|].
  pose proof (flush_state m) as Hs.
  destruct (flush m) as [s w]. simpl in Hs. subst s. apply flush_fresh.
Qed.

(* ===================================================================== *)
(** ** Whole blocks *)
(* ===================================================================== *)

(** No newline inside. *)
Definition oneLine (s : jsstring) : Prop := includes LF s = false.

Lemma includes_cons c a s :
  includes c (a :: s) = false -> ceq a c = false /\ includes c s = false.
Proof.
  unfold includes. simpl. intros H. apply orb_false_elim in H.
  destruct H as [Ha Hs]. split; [|exact Hs].
  unfold ceq in *. now rewrite N.eqb_sym.
Qed.

Lemma split_clean sep s : includes sep s = false -> split sep s = [s].
Proof.
  induction s as [|a s IH]; intros H; [reflexivity|].
  apply includes_cons in H. destruct H as [Ha Hs].
  rewrite split_cons_other by exact Ha. now rewrite (IH Hs).
Qed.

Lemma split_line sep l rest :
  includes sep l = false ->
  split sep (l ++ sep :: rest) = l :: split sep rest.
Proof.
  induction l as [|a l IH]; intros H.
  - simpl. unfold ceq. now rewrite N.eqb_refl.
  - apply includes_cons in H. destruct H as [Ha Hl].
    rewrite <- app_comm_cons, split_cons_other by exact Ha.
    now rewrite (IH Hl).
Qed.

Lemma split_join sep lines :
  lines <> [] -> Forall (fun l => includes sep l = false) lines ->
  split sep (join [sep] lines) = lines.
Proof.
  intros Hne H. induction H as [|l lines Hl Hlines IH]; [contradiction|].
  destruct lines as [|l2 lines].
  - simpl. now apply split_clean.
  - change (join [sep] (l :: l2 :: lines))
      with (l ++ sep :: join [sep] (l2 :: lines)).
    rewrite (split_line sep l _ Hl). f_equal. apply IH. discriminate.
Qed.

(** Complete lines as a text: each followed by a newline. *)
Definition linesText (lines : list jsstring) : jsstring :=
  List.concat (map (fun l => l ++ newline) lines).

Lemma split_linesText lines :
  Forall oneLine lines -> split LF (linesText lines) = lines ++ [[]].
Proof.
  unfold linesText. induction 1 as [|l lines Hl _ IH]; [reflexivity|].
  cbn [map List.concat]. unfold newline at 1. rewrite <- app_assoc.
  cbn [app]. rewrite (split_line LF l _ Hl). now rewrite IH.
Qed.

Definition machine (b : jsstring) (p : list jsstring) (c : bool)
    (t : option TableState) (w : list jsstring) : Machine :=
  {| state := {| buffer := b; pendingLines := p;
                 inCodeBlock := c; tableState := t |};
     written := w |}.

Lemma write_linesText lines :
  Forall oneLine lines ->
  write (linesText lines) createMarkdownRenderer
  = processPending false (machine [] lines false None []).
Proof.
  intros H. unfold write. rewrite receive_run.
  cbn [createMarkdownRenderer createInitialState state buffer app].
  rewrite (split_linesText lines H).
  rewrite removelast_last, last_last. reflexivity.
Qed.

Lemma render_concat chunks : render chunks = render [List.concat chunks].
Proof.
  unfold render.
  change (writeAll [List.concat chunks] createMarkdownRenderer)
    with (write (List.concat chunks) createMarkdownRenderer).
  destruct chunks as [|c chunks].
  - change (List.concat []) with (@nil char). now rewrite write_empty_fresh.
  - now rewrite writeAll_concat by discriminate.
Qed.

(** The passes of the loop on explicit machines. *)
Lemma pass_code_line final b l rest w :
  isFence l = false ->
  iteration final (machine b (l :: rest) true None w)
  = Some (machine b rest true None (w ++ [l ++ newline])).
Proof.
  intros H. unfold iteration, iterationBody, machine.
  cbn [state pendingLines tableState inCodeBlock]. now rewrite H.
Qed.

Lemma pass_fence_close final b l rest w :
  isFence l = true ->
  iteration final (machine b (l :: rest) true None w)
  = Some (machine b rest false None (w ++ [ansi.codeOff ++ newline])).
Proof.
  intros H. unfold iteration, iterationBody, machine.
  cbn [state pendingLines tableState inCodeBlock]. now rewrite H.
Qed.

Lemma pass_fence_open final b l rest w :
  isFence l = true ->
  iteration final (machine b (l :: rest) false None w)
  = Some (machine b rest true None (w ++ [ansi.codeOn ++ newline])).
Proof.
  intros H. unfold iteration, iterationBody, machine.
  cbn [state pendingLines tableState inCodeBlock]. now rewrite H.
Qed.

Lemma pass_table_row final b l rest c table w :
  isTableRow l = true -> isTableSeparator l = false ->
  iteration final (machine b (l :: rest) c (Some table) w)
  = Some (machine b rest c
            (Some {| header := header table;
                     rows := rows table ++ [parseTableRow l] |}) w).
Proof.
  intros Hr Hs. unfold iteration, iterationBody, machine.
  cbn [state pendingLines tableState inCodeBlock]. now rewrite Hr, Hs.
Qed.

Lemma pass_table_close final b l rest c table w :
  isTableRow l && negb (isTableSeparator l) = false ->
  iteration final (machine b (l :: rest) c (Some table) w)
  = Some (machine b (l :: rest) c None (w ++ [renderTable table ++ newline])).
Proof.
  intros H. unfold iteration, iterationBody, machine.
  cbn [state pendingLines tableState inCodeBlock]. now rewrite H.
Qed.

Lemma pass_table_open final b head sep rest w :
  isTableRow head = true -> isFence head = false ->
  isTableSeparator sep = true ->
  iteration final (machine b (head :: sep :: rest) false None w)
  = Some (machine b rest false
            (Some {| header := parseTableRow head; rows := [] |}) w).
Proof.
  intros Hr Hf Hs. unfold iteration, iterationBody, machine.
  cbn [state pendingLines tableState inCodeBlock nth_error List.length].
  rewrite Hf, Hr, separator_test, Hs.
  replace ((S (S (List.length rest)) <? 2) && negb final) with false
    by (now destruct final).
  reflexivity.
Qed.

Lemma pass_generic final b l next rest w :
  isFence l = false -> isTableSeparator next = false ->
  iteration final (machine b (l :: next :: rest) false None w)
  = Some (machine b (next :: rest) false None (w ++ [renderLine l ++ newline])).
Proof.
  intros Hf Hs. unfold iteration, iterationBody, machine.
  cbn [state pendingLines tableState inCodeBlock nth_error List.length].
  rewrite Hf, separator_test, Hs.
  replace ((S (S (List.length rest)) <? 2) && negb final) with false
    by (now destruct final).
  destruct (isTableRow l); reflexivity.
Qed.

Lemma code_lines_loop final body : forall b rest w,
  Forall (fun l => isFence l = false) body ->
  processPending final (machine b (body ++ rest) true None w)
  = processPending final
      (machine b rest true None (w ++ map (fun l => l ++ newline) body)).
Proof.
  induction body as [|l body IH]; intros b rest w H.
  - simpl. now rewrite app_nil_r.
  - inversion H as [|? ? Hl Hbody]; subst.
    rewrite processPending_unfold. cbn [app].
    rewrite (pass_code_line final b l (body ++ rest) w Hl).
    rewrite (IH b rest _ Hbody). cbn [map]. now rewrite <- app_assoc.
Qed.

Lemma table_rows_loop final rowLines : forall b rest c table w,
  Forall (fun l => isTableRow l = true /\ isTableSeparator l = false) rowLines ->
  processPending final (machine b (rowLines ++ rest) c (Some table) w)
  = processPending final
      (machine b rest c
         (Some {| header := header table;
                  rows := rows table ++ map parseTableRow rowLines |}) w).
Proof.
  induction rowLines as [|l rowLines IH]; intros b rest c table w H.
  - destruct table as [h r]. simpl. now rewrite app_nil_r.
  - inversion H as [|? ? [Hr Hs] Hrows]; subst.
    rewrite processPending_unfold. cbn [app].
    rewrite (pass_table_row final b l (rowLines ++ rest) c table w Hr Hs).
    rewrite (IH b rest c _ w Hrows). cbn [header rows map].
    now rewrite <- app_assoc.
Qed.

Lemma pass_plain final b l rest w :
  isFence l = false -> isTableRow l = false ->
  iteration final (machine b (l :: rest) false None w)
  = Some (machine b rest false None (w ++ [renderLine l ++ newline])).
Proof.
  intros Hf Hr. unfold iteration, iterationBody, machine.
  cbn [state pendingLines tableState inCodeBlock]. now rewrite Hf, Hr.
Qed.

Lemma plain_lines_loop final lines : forall b rest w,
  Forall (fun l => isFence l = false /\ isTableRow l = false) lines ->
  processPending final (machine b (lines ++ rest) false None w)
  = processPending final
      (machine b rest false None
         (w ++ map (fun l => renderLine l ++ newline) lines)).
Proof.
  induction lines as [|l lines IH]; intros b rest w H.
  - simpl. now rewrite app_nil_r.
  - inversion H as [|? ? [Hf Hr] Hlines]; subst.
    rewrite processPending_unfold. cbn [app].
    rewrite (pass_plain final b l (lines ++ rest) w Hf Hr).
    rewrite (IH b rest _ Hlines). cbn [map]. now rewrite <- app_assoc.
Qed.

Lemma render_lines chunks lines :
  List.concat chunks = linesText lines -> Forall oneLine lines ->
  render chunks
  = written (flush (processPending false (machine [] lines false None []))).
Proof.
  intros Hc Hl. rewrite render_concat, Hc. unfold render.
  change (writeAll [linesText lines] createMarkdownRenderer)
    with (write (linesText lines) createMarkdownRenderer).
  now rewrite write_linesText.
Qed.

(** A fenced code block, however the stream is cut into chunks: an opening
    fence line, lines that are not fences, a closing fence line.  The sink
    gets the style start, every line of the block as it is, whatever
    Markdown it holds, and the style reset; the fence lines themselves and
    what stands after the backticks (a language name) are not emitted. *)
Theorem code_block_stream (chunks : list jsstring)
    (opening closing : jsstring) (body : list jsstring) :
  List.concat chunks = linesText (opening :: body ++ [closing]) ->
  Forall oneLine (opening :: body ++ [closing]) ->
  isFence opening = true -> isFence closing = true ->
  Forall (fun l => isFence l = false) body ->
  render chunks
  = (ansi.codeOn ++ newline) :: map (fun l => l ++ newline) body
    ++ [ansi.codeOff ++ newline].
Proof.
  intros Hc Hl Ho Hcl Hb.
  rewrite (render_lines chunks _ Hc Hl).
  rewrite processPending_unfold, (pass_fence_open false [] opening _ [] Ho).
  rewrite (code_lines_loop false body [] [closing] _ Hb).
  rewrite processPending_unfold, (pass_fence_close false [] closing [] _ Hcl).
  rewrite processPending_stops by reflexivity.
  unfold machine. fold createInitialState. rewrite flush_fresh.
  reflexivity.
Qed.

Lemma code_block_stream_witness :
  render [str "```j"; str "s" ++ newline ++ str "# not a "; str "heading";
          newline ++ str "a|b" ++ newline ++ str "  ```" ++ newline]
  = [ansi.codeOn ++ newline; str "# not a heading" ++ newline;
     str "a|b" ++ newline; ansi.codeOff ++ newline].
Proof.
  exact (code_block_stream
           [str "```j"; str "s" ++ newline ++ str "# not a "; str "heading";
            newline ++ str "a|b" ++ newline ++ str "  ```" ++ newline]
           (str "```js") (str "  ```") [str "# not a heading"; str "a|b"]
           eq_refl
           ltac:(repeat constructor) eq_refl eq_refl
           ltac:(repeat constructor)).
Defined.

(** A table, however the stream is cut into chunks: a header line with a
    pipe that is not a fence, a separator line, then data rows (lines with a
    pipe that are not separator lines), and the end of the stream.  The
    sink gets one string, the rendered table whose header and rows are the
    parsed cells of those lines, in order. *)
Theorem table_stream (chunks : list jsstring)
    (head sep : jsstring) (rowLines : list jsstring) :
  List.concat chunks = linesText (head :: sep :: rowLines) ->
  Forall oneLine (head :: sep :: rowLines) ->
  isTableRow head = true -> isFence head = false ->
  isTableSeparator sep = true ->
  Forall (fun l => isTableRow l = true /\ isTableSeparator l = false) rowLines ->
  render chunks
  = [renderTable {| header := parseTableRow head;
                    rows := map parseTableRow rowLines |} ++ newline].
Proof.
  intros Hc Hl Hr Hf Hs Hrows.
  rewrite (render_lines chunks _ Hc Hl).
  rewrite processPending_unfold,
          (pass_table_open false [] head sep rowLines [] Hr Hf Hs).
  rewrite <- (app_nil_r rowLines) at 1.
  rewrite (table_rows_loop false rowLines [] [] false _ [] Hrows).
  rewrite processPending_stops by reflexivity.
  cbn [header rows app].
  unfold flush, machine.
  cbn [moveBuffer state buffer isEmpty negb run fold_left].
  rewrite processPending_stops by reflexivity.
  reflexivity.
Qed.

Lemma table_stream_witness :
  render [str "| A | B"; str "B |" ++ newline ++ str "|--"; str "-|---|" ++ newline;
          str "| 1 | 22 |" ++ newline ++ str "x|" ++ newline]
  = [renderTable {| header := [str "A"; str "BB"];
                    rows := [[str "1"; str "22"]; [str "x"]] |} ++ newline].
Proof.
  exact (table_stream
           [str "| A | B"; str "B |" ++ newline ++ str "|--";
            str "-|---|" ++ newline;
            str "| 1 | 22 |" ++ newline ++ str "x|" ++ newline]
           (str "| A | BB |") (str "|---|---|") [str "| 1 | 22 |"; str "x|"]
           eq_refl ltac:(repeat constructor) eq_refl eq_refl eq_refl
           ltac:(repeat constructor)).
Defined.

(** Lines without a pipe that are not fences never wait for anything and
    never open a block: however the stream is cut into chunks, the sink
    gets one string per line, in order, each the generic rendering of its
    line followed by a newline. *)
Theorem plain_lines_stream (chunks : list jsstring) (lines : list jsstring) :
  List.concat chunks = linesText lines ->
  Forall oneLine lines ->
  Forall (fun l => isFence l = false /\ isTableRow l = false) lines ->
  render chunks = map (fun l => renderLine l ++ newline) lines.
Proof.
  intros Hc Hl Hp.
  rewrite (render_lines chunks _ Hc Hl).
  rewrite <- (app_nil_r lines) at 1.
  rewrite (plain_lines_loop false lines [] [] [] Hp).
  rewrite processPending_stops by reflexivity.
  unfold machine. fold createInitialState. now rewrite flush_fresh.
Qed.

Lemma plain_lines_stream_witness :
  render [str "# Ti"; str "tle" ++ newline ++ newline ++ str "tex"; str "t" ++ newline]
  = [ansi.headingOn ++ str "Title" ++ ansi.headingOff ++ newline;
     newline; str "text" ++ newline].
Proof.
  exact (plain_lines_stream
           [str "# Ti"; str "tle" ++ newline ++ newline ++ str "tex";
            str "t" ++ newline]
           [str "# Title"; []; str "text"]
           eq_refl ltac:(repeat constructor) ltac:(repeat constructor)).
Defined.

(* ===================================================================== *)
(** ** White space around a line *)
(* ===================================================================== *)

Lemma blank_app w1 w2 : blank w1 -> blank w2 -> blank (w1 ++ w2).
Proof. unfold blank. intros. now apply Forall_app. Qed.

Lemma blank_rev w : blank w -> blank (rev w).
Proof. unfold blank. apply Forall_rev. Qed.

Lemma dropWhile_blank w s :
  blank w -> dropWhile isSpace (w ++ s) = dropWhile isSpace s.
Proof.
  induction 1 as [|c w Hc _ IH]; [reflexivity|]. simpl. now rewrite Hc.
Qed.

Lemma dropWhile_all_blank w : blank w -> dropWhile isSpace w = [].
Proof.
  intros H. rewrite <- (app_nil_r w). now rewrite dropWhile_blank.
Qed.

Lemma dropWhile_suffix p s : exists pre, s = pre ++ dropWhile p s /\ forallb p pre = true.
Proof.
  induction s as [|c s (pre & Hs & Hpre)]; [now exists []|].
  simpl. destruct (p c) eqn:E.
  - exists (c :: pre). split; [simpl; now f_equal | simpl; now rewrite E].
  - now exists [].
Qed.

Lemma forallb_blank w : forallb isSpace w = true <-> blank w.
Proof. unfold blank. rewrite forallb_forall, Forall_forall. reflexivity. Qed.

Lemma trimEnd_blank s w : blank w -> trimEnd (s ++ w) = trimEnd s.
Proof.
  intros H. unfold trimEnd. rewrite rev_app_distr.
  now rewrite dropWhile_blank by (now apply blank_rev).
Qed.

(** [trimEnd] keeps everything up to a character that is not white
    space. *)
Lemma trimEnd_after s c t :
  isSpace c = false -> trimEnd (s ++ c :: t) = s ++ c :: trimEnd t.
Proof.
  intros Hc. unfold trimEnd.
  replace (s ++ c :: t) with ((s ++ [c]) ++ t) by (now rewrite <- app_assoc).
  rewrite rev_app_distr.
  destruct (dropWhile isSpace (rev t)) as [|d r] eqn:E.
  - rewrite (dropWhile_app_all _ _ (rev (s ++ [c])) E).
    rewrite rev_app_distr. simpl. rewrite Hc.
    change (c :: rev s) with ([c] ++ rev s).
    rewrite rev_app_distr, rev_involutive. reflexivity.
  - rewrite (dropWhile_app_stop _ _ _ _ (rev (s ++ [c])) E).
    change (d :: r ++ rev (s ++ [c])) with ((d :: r) ++ rev (s ++ [c])).
    rewrite rev_app_distr, rev_involutive. now rewrite <- app_assoc.
Qed.

Lemma trimEnd_prefix s : exists w, blank w /\ s = trimEnd s ++ w.
Proof.
  unfold trimEnd.
  destruct (dropWhile_suffix isSpace (rev s)) as (pre & Hs & Hpre).
  exists (rev pre). split.
  - apply blank_rev. now apply forallb_blank.
  - rewrite <- rev_app_distr, <- Hs. now rewrite rev_involutive.
Qed.

Lemma trim_padded w1 s w2 :
  blank w1 -> blank w2 -> trim (w1 ++ s ++ w2) = trim s.
Proof.
  intros H1 H2. unfold trim, trimStart.
  rewrite (dropWhile_blank w1 _ H1).
  destruct (dropWhile isSpace s) as [|c r] eqn:E.
  - rewrite (dropWhile_app_all _ _ w2 E).
    now rewrite (dropWhile_all_blank w2 H2).
  - rewrite (dropWhile_app_stop _ _ _ _ w2 E).
    change (c :: r ++ w2) with ((c :: r) ++ w2).
    now apply trimEnd_blank.
Qed.

Lemma dropWhile_stops p s c r : dropWhile p s = c :: r -> p c = false.
Proof.
  induction s as [|a s IH]; simpl; [discriminate|].
  destruct (p a) eqn:E; [exact IH|].
  intros H. inversion H; subst. exact E.
Qed.

(** A string without white space at either end. *)
Definition isTrimmed (s : jsstring) : Prop :=
  match s with
  | [] => True
  | c :: _ => isSpace c = false /\ isSpace (last s c) = false
  end.

Lemma trim_fixed s : isTrimmed s -> trim s = s.
Proof.
  destruct s as [|c t]; [reflexivity|]. intros [Hc Hl].
  unfold trim, trimStart. cbn [dropWhile]. rewrite Hc.
  destruct (exists_last (l := c :: t)) as (s' & z & E); [discriminate|].
  rewrite E in Hl |- *. rewrite last_last in Hl.
  rewrite (trimEnd_after s' z [] Hl). reflexivity.
Qed.

Lemma trim_isTrimmed s : isTrimmed (trim s).
Proof.
  unfold trim, trimStart.
  destruct (dropWhile isSpace s) as [|c r] eqn:E; [exact I|].
  pose proof (dropWhile_stops _ _ _ _ E) as Hc.
  pose proof (trimEnd_after [] c r Hc) as Ht. cbn [app] in Ht. rewrite Ht.
  split; [exact Hc|].
  unfold trimEnd.
  destruct (dropWhile isSpace (rev r)) as [|d q] eqn:E2; [exact Hc|].
  pose proof (dropWhile_stops _ _ _ _ E2) as Hd.
  cbn [rev]. rewrite app_comm_cons, last_last. exact Hd.
Qed.

Lemma trim_idempotent s : trim (trim s) = trim s.
Proof. apply trim_fixed, trim_isTrimmed. Qed.

(* ===================================================================== *)
(** ** Fence lines and table rows *)
(* ===================================================================== *)

Lemma startsWith_prefix p s :
  startsWith p s = true <-> exists r, s = p ++ r.
Proof.
  revert s. induction p as [|a p IH]; intros s; simpl.
  - split; [intros _; now exists s | reflexivity].
  - destruct s as [|b s].
    + split; [discriminate | intros (r & H); discriminate].
    + rewrite andb_true_iff, IH, ceq_eq. split.
      * intros (-> & r & ->). now exists r.
      * intros (r & H). inversion H; subst. split; [reflexivity | now exists r].
Qed.

(** A line is a fence exactly when it is three backticks after any white
    space, followed by anything: indentation is ignored, and so is what
    comes after the backticks. *)
Theorem isFence_shape (line : jsstring) :
  isFence line = true
  <-> exists indent rest, blank indent /\ line = indent ++ str "```" ++ rest.
Proof.
  unfold isFence. rewrite startsWith_prefix. split.
  - intros (r & Hr).
    destruct (dropWhile_suffix isSpace line) as (pre & Hline & Hpre).
    destruct (trimEnd_prefix (dropWhile isSpace line)) as (w & _ & Hw).
    unfold trim, trimStart in Hr. rewrite Hr in Hw.
    exists pre, (r ++ w). split; [now apply forallb_blank|].
    rewrite Hline at 1. rewrite Hw. now rewrite <- app_assoc.
  - intros (indent & rest & Hb & ->).
    pose proof (trim_padded indent (str "```" ++ rest) [] Hb (Forall_nil _)) as Ht.
    rewrite app_nil_r in Ht. rewrite Ht.
    unfold trim, trimStart. change (str "```") with [BACKTICK; BACKTICK; BACKTICK].
    cbn [app dropWhile]. change (isSpace BACKTICK) with false. cbv iota.
    pose proof (trimEnd_after [BACKTICK; BACKTICK] BACKTICK rest eq_refl) as H.
    cbn [app] in H. rewrite H. now exists (trimEnd rest).
Qed.

Lemma includes_app c s t : includes c (s ++ t) = includes c s || includes c t.
Proof. unfold includes. apply existsb_app. Qed.

Lemma includes_rev c s : includes c (rev s) = includes c s.
Proof.
  induction s as [|a s IH]; [reflexivity|].
  cbn [rev]. rewrite includes_app, IH. unfold includes. simpl.
  rewrite orb_false_r. apply orb_comm.
Qed.

Lemma includes_dropWhile c p s :
  includes c s = false -> includes c (dropWhile p s) = false.
Proof.
  intros H. destruct (dropWhile_suffix p s) as (pre & Hs & _).
  rewrite Hs, includes_app in H. now apply orb_false_elim in H.
Qed.

Lemma includes_trim c s : includes c s = false -> includes c (trim s) = false.
Proof.
  intros H. unfold trim, trimEnd, trimStart.
  rewrite includes_rev. apply includes_dropWhile.
  rewrite includes_rev. now apply includes_dropWhile.
Qed.

Lemma split_pieces_clean sep s :
  Forall (fun l => includes sep l = false) (split sep s).
Proof.
  induction s as [|c t IH]; [repeat constructor|].
  destruct (ceq c sep) eqn:E.
  - rewrite split_cons_sep by exact E. now constructor.
  - rewrite split_cons_other by exact E.
    pose proof (split_nonempty sep t) as Hn.
    destruct (split sep t) as [|l ls]; [contradiction|].
    inversion IH; subst. constructor; [|assumption].
    cbn [hd]. unfold includes in *. simpl.
    unfold ceq in *. rewrite N.eqb_sym, E. assumption.
Qed.

(** The cells of a row: there is always at least one; none holds a pipe;
    each is trimmed, so trimming it again changes nothing. *)
Theorem parseTableRow_cells (line : jsstring) :
  parseTableRow line <> []
  /\ Forall (fun cell => includes PIPE cell = false /\ trim cell = cell)
            (parseTableRow line).
Proof.
  unfold parseTableRow.
  set (inner := dropTrailingPipe (dropLeadingPipe (trim line))).
  split.
  - pose proof (split_nonempty PIPE inner) as Hn.
    destruct (split PIPE inner); [contradiction | discriminate].
  - apply Forall_map. eapply Forall_impl; [|apply split_pieces_clean].
    intros piece Hp. split; [now apply includes_trim | apply trim_idempotent].
Qed.

Lemma blank_no_pipe w : blank w -> includes PIPE w = false.
Proof.
  induction 1 as [|c w Hc _ IH]; [reflexivity|].
  unfold includes in *. cbn [existsb]. rewrite IH, orb_false_r.
  destruct (ceq PIPE c) eqn:E; [|reflexivity].
  apply ceq_eq in E. subst c. discriminate Hc.
Qed.

Lemma dropTrailingPipe_last s : dropTrailingPipe (s ++ [PIPE]) = s.
Proof.
  unfold dropTrailingPipe. rewrite rev_app_distr. simpl.
  apply rev_involutive.
Qed.

(** A cell between white space. *)
Definition paddedCell (piece cell : jsstring) : Prop :=
  exists w1 w2, blank w1 /\ blank w2 /\ piece = w1 ++ cell ++ w2.

(** Reading back a row written between pipes: for cells that hold no pipe
    and no white space at their ends, each padded with any white space,
    joined by pipes and put between an opening and a closing pipe, with any
    white space around the line, [parseTableRow] gives the cells back. *)
Theorem parseTableRow_framed (lead trail : jsstring)
    (pieces cells : list jsstring) :
  blank lead -> blank trail -> cells <> [] ->
  Forall2 paddedCell pieces cells ->
  Forall (fun cell => includes PIPE cell = false /\ isTrimmed cell) cells ->
  parseTableRow (lead ++ (PIPE :: join [PIPE] pieces ++ [PIPE]) ++ trail)
  = cells.
Proof.
  intros Hlead Htrail Hne Hp Hc. unfold parseTableRow.
  rewrite (trim_padded lead _ trail Hlead Htrail).
  rewrite trim_fixed.
  2:{ split; [reflexivity|]. now rewrite app_comm_cons, last_last. }
  cbn [dropLeadingPipe]. change (ceq PIPE PIPE) with true. cbv iota.
  rewrite dropTrailingPipe_last.
  assert (Hclean : Forall (fun l => includes PIPE l = false) pieces).
  { clear Hne. induction Hp as [|piece cell pieces cells Hpc _ IH]; [constructor|].
    inversion Hc as [|? ? [Hcell _] Hcells]; subst.
    constructor; [|now apply IH].
    destruct Hpc as (w1 & w2 & H1 & H2 & ->).
    rewrite !includes_app, Hcell, !blank_no_pipe by assumption. reflexivity. }
  rewrite split_join; [|destruct Hp; [contradiction | discriminate]|exact Hclean].
  clear Hne Hclean. induction Hp as [|piece cell pieces cells Hpc _ IH]; [reflexivity|].
  inversion Hc as [|? ? [_ Htrim] Hcells]; subst.
  cbn [map]. rewrite (IH Hcells). f_equal.
  destruct Hpc as (w1 & w2 & H1 & H2 & ->).
  rewrite (trim_padded w1 cell w2 H1 H2). now apply trim_fixed.
Qed.

Lemma parseTableRow_framed_witness :
  parseTableRow (str "  | a b |c|  | d |   ") = [str "a b"; str "c"; []; str "d"].
Proof.
  apply (parseTableRow_framed (str "  ") (str "   ")
           [str " a b "; str "c"; str "  "; str " d "]
           [str "a b"; str "c"; []; str "d"]).
  - repeat constructor.
  - repeat constructor.
  - discriminate.
  - repeat constructor.
    + exists (str " "), (str " "). repeat split; repeat constructor.
    + exists [], []. repeat split; repeat constructor.
    + exists (str "  "), []. repeat split; repeat constructor.
    + exists (str " "), (str " "). repeat split; repeat constructor.
  - repeat constructor.
Defined.

(* ===================================================================== *)
(** ** Generic lines *)
(* ===================================================================== *)

Lemma trim_blank s : blank s -> trim s = [].
Proof.
  intros H. unfold trim, trimStart. now rewrite dropWhile_all_blank.
Qed.

Lemma blank_not_fence s : blank s -> isFence s = false.
Proof. intros H. unfold isFence. now rewrite trim_blank. Qed.

(** A line of white space only (the empty line too) is rendered as the
    empty string; it is no fence and no table row, so in NORMAL mode a
    pass hands the sink a bare newline for it, whatever follows. *)
Theorem blank_line (final : bool) (b line : jsstring)
    (rest w : list jsstring) :
  blank line ->
  renderLine line = []
  /\ iteration final (machine b (line :: rest) false None w)
     = Some (machine b rest false None (w ++ [newline])).
Proof.
  intros H.
  assert (Hr : renderLine line = [])
    by (unfold renderLine; now rewrite trim_blank).
  split; [exact Hr|].
  rewrite (pass_plain final b line rest w).
  - now rewrite Hr.
  - now apply blank_not_fence.
  - apply blank_no_pipe. exact H.
Qed.

Lemma blank_line_witness :
  renderLine (str "   ") = []
  /\ iteration false (machine [] [str "   "; str "x"] false None [])
     = Some (machine [] [str "x"] false None [newline]).
Proof.
  exact (blank_line false [] (str "   ") [str "x"] []
           ltac:(repeat constructor)).
Defined.

Lemma takeWhile_run p s c r :
  forallb p s = true -> p c = false -> takeWhile p (s ++ c :: r) = s.
Proof.
  intros Hs Hc. induction s as [|a s IH]; simpl in *.
  - now rewrite Hc.
  - apply andb_prop in Hs. destruct Hs as [Ha Hs]. rewrite Ha.
    f_equal. now apply IH.
Qed.

Lemma takeWhile_all p s : forallb p s = true -> takeWhile p s = s.
Proof.
  induction s as [|a s IH]; simpl; [reflexivity|].
  intros H. apply andb_prop in H. destruct H as [Ha Hs]. rewrite Ha.
  f_equal. now apply IH.
Qed.

Lemma dropWhile_idempotent p s : dropWhile p (dropWhile p s) = dropWhile p s.
Proof.
  destruct (dropWhile p s) as [|c r] eqn:E; [reflexivity|].
  apply dropWhile_stops in E. simpl. now rewrite E.
Qed.

Lemma forallb_repeat (p : char -> bool) c n :
  p c = true -> forallb p (repeat c n) = true.
Proof. intros H. induction n; simpl; [reflexivity | now rewrite H]. Qed.

Lemma trim_nonblank_head c s : isSpace c = false -> trim (c :: s) = c :: trimEnd s.
Proof.
  intros H. unfold trim, trimStart. cbn [dropWhile]. rewrite H.
  exact (trimEnd_after [] c s H).
Qed.

(** The rule character: a dash, a star or an underscore. *)
Definition isRuleChar (c : char) : bool :=
  ceq c DASH || ceq c STAR || ceq c UNDERSCORE.

Lemma lang_atLeast3 c n : 3 <= n -> lang (atLeast3 c) (repeat c n).
Proof.
  intros H. destruct n as [|[|[|n]]]; try lia.
  change (repeat c (S (S (S n)))) with ([c] ++ [c] ++ repeat c (S n)).
  unfold atLeast3. repeat apply L_seq; try (now apply lang_chr).
  apply lang_plus_chr. now exists n.
Qed.

(** Horizontal rules are normalised: three or more dashes, or stars, or
    underscores, with any white space before and after, are rendered as
    the same dim line of 40 box characters, whatever the character and
    however many there are. *)
Theorem horizontal_rule (indent trail : jsstring) (c : char) (n : nat) :
  blank indent -> blank trail -> isRuleChar c = true -> 3 <= n ->
  renderLine (indent ++ repeat c n ++ trail)
  = ansi.dimOn ++ repeatChar BOX_HORIZONTAL 40 ++ ansi.dimOff.
Proof.
  intros Hi Ht Hc Hn.
  assert (Hcases : c = DASH \/ c = STAR \/ c = UNDERSCORE).
  { unfold isRuleChar in Hc.
    apply orb_prop in Hc. destruct Hc as [Hc | Hc].
    - apply orb_prop in Hc. destruct Hc as [Hc | Hc]; apply ceq_eq in Hc; auto.
    - apply ceq_eq in Hc. auto. }
  assert (Hns : isSpace c = false /\ ceq HASH c = false)
    by (destruct Hcases as [-> | [-> | ->]]; split; reflexivity).
  destruct Hns as [Hns Hnh].
  destruct n as [|n]; [lia|].
  unfold renderLine.
  rewrite (trim_padded indent _ trail Hi Ht).
  cbn [repeat]. rewrite (trim_nonblank_head c _ Hns).
  assert (Hh : matchHeading (indent ++ (c :: repeat c n) ++ trail) = None).
  { unfold matchHeading. rewrite (dropWhile_blank indent _ Hi).
    cbn [app dropWhile takeWhile]. rewrite Hns. cbn [takeWhile].
    now rewrite Hnh. }
  rewrite Hh.
  assert (Hm : matches hrRe (indent ++ repeat c (S n) ++ trail) = true).
  { apply matches_lang. unfold hrRe.
    apply L_seq; [now apply lang_ws|]. apply L_seq; [|now apply lang_ws].
    destruct Hcases as [-> | [-> | ->]].
    - apply L_alt_l. now apply lang_atLeast3.
    - apply L_alt_r, L_alt_l. now apply lang_atLeast3.
    - apply L_alt_r, L_alt_r. now apply lang_atLeast3. }
  cbn [repeat] in Hm. now rewrite Hm.
Qed.

Lemma horizontal_rule_witness :
  renderLine (str "---") = renderLine (str "  *****  ")
  /\ renderLine (str "____")
     = ansi.dimOn ++ repeatChar BOX_HORIZONTAL 40 ++ ansi.dimOff.
Proof.
  split.
  - transitivity (ansi.dimOn ++ repeatChar BOX_HORIZONTAL 40 ++ ansi.dimOff);
      [|symmetry].
    + exact (horizontal_rule [] [] DASH 3
               ltac:(constructor) ltac:(constructor) eq_refl ltac:(lia)).
    + exact (horizontal_rule (str "  ") (str "  ") STAR 5
               ltac:(repeat constructor) ltac:(repeat constructor)
               eq_refl ltac:(lia)).
  - exact (horizontal_rule [] [] UNDERSCORE 4
             ltac:(constructor) ltac:(constructor) eq_refl ltac:(lia)).
Defined.

(** Headings: after any indentation, one to six hashes, white space, and a
    text without line terminators after its leading white space, the line
    is rendered as the heading style around the inline-styled, trimmed
    text; the hashes are not emitted. *)
Theorem heading_line (indent text : jsstring) (k : nat) (sp : char) :
  blank indent -> 1 <= k <= 6 -> isSpace sp = true ->
  noLineTerminator (trimStart text) = true ->
  renderLine (indent ++ repeat HASH k ++ sp :: text)
  = ansi.headingOn ++ renderInline (trim text) ++ ansi.headingOff.
Proof.
  intros Hi Hk Hsp Hnt.
  assert (Hne : ceq HASH sp = false).
  { destruct (ceq HASH sp) eqn:E; [|reflexivity].
    apply ceq_eq in E. subst sp. discriminate Hsp. }
  destruct k as [|k]; [lia|].
  unfold renderLine.
  pose proof (trim_padded indent (repeat HASH (S k) ++ sp :: text) []
                Hi (Forall_nil _)) as Ht.
  rewrite app_nil_r in Ht. rewrite Ht. clear Ht.
  cbn [repeat app]. rewrite (trim_nonblank_head HASH _ eq_refl).
  assert (Hh : matchHeading (indent ++ HASH :: repeat HASH k ++ sp :: text)
               = Some (trimStart text)).
  { unfold matchHeading. rewrite (dropWhile_blank indent _ Hi).
    cbn [dropWhile]. change (isSpace HASH) with false. cbv iota.
    change (HASH :: repeat HASH k ++ sp :: text)
      with (repeat HASH (S k) ++ sp :: text).
    rewrite takeWhile_run, dropWhile_run
      by (try (apply forallb_repeat; reflexivity); exact Hne).
    rewrite repeat_length.
    replace ((1 <=? S k) && (S k <=? 6)) with true.
    2:{ symmetry. apply andb_true_intro. split; apply Nat.leb_le; lia. }
    unfold spacesThenRest. rewrite Hsp. cbn [dropWhile]. rewrite Hsp.
    fold (trimStart text). now rewrite Hnt. }
  rewrite Hh.
  replace (trim (trimStart text)) with (trim text); [reflexivity|].
  unfold trim, trimStart. now rewrite dropWhile_idempotent.
Qed.

Lemma heading_line_witness :
  renderLine (str "  ###   Title  ")
  = ansi.headingOn ++ str "Title" ++ ansi.headingOff.
Proof.
  exact (heading_line (str "  ") (str "  Title  ") 3 SPACE
           ltac:(repeat constructor) ltac:(lia) eq_refl eq_refl).
Defined.

(* ===================================================================== *)
(** ** Text without markup, text without escapes *)
(* ===================================================================== *)

(** The characters an inline pattern can start at: backtick, tilde, star,
    underscore and opening bracket. *)
Definition isMarkup (c : char) : bool :=
  ceq c BACKTICK || ceq c TILDE || ceq c STAR || ceq c UNDERSCORE
  || ceq c 91%N.

Definition plainText (s : jsstring) : bool :=
  forallb (fun c => negb (isMarkup c)) s.

Lemma plain_char c :
  negb (isMarkup c) = true ->
  ceq c BACKTICK = false /\ ceq c TILDE = false /\ ceq c STAR = false
  /\ ceq c UNDERSCORE = false /\ ceq c 91%N = false.
Proof.
  unfold isMarkup. rewrite negb_true_iff. intros H.
  repeat (apply orb_false_elim in H; destruct H as [H ?]).
  repeat split; assumption.
Qed.

Lemma replaceAllFrom_untouched (m : matcher) (ok : char -> bool) :
  (forall b s, forallb ok s = true -> m b s = None) ->
  forall fuel b s, forallb ok s = true -> replaceAllFrom m fuel b s = s.
Proof.
  intros Hm. induction fuel as [|fuel IH]; intros b s Hs; [reflexivity|].
  simpl. rewrite (Hm b s Hs).
  destruct s as [|c t]; [reflexivity|].
  simpl in Hs. apply andb_prop in Hs. destruct Hs as [_ Ht].
  f_equal. now apply IH.
Qed.

Lemma replaceAll_untouched (m : matcher) (ok : char -> bool) s :
  (forall b s, forallb ok s = true -> m b s = None) ->
  forallb ok s = true -> replaceAll m s = s.
Proof. intros Hm Hs. unfold replaceAll. now apply replaceAllFrom_untouched with ok. Qed.

Ltac plain_head H :=
  simpl in H; apply andb_prop in H; destruct H as [?Hc H];
  apply plain_char in Hc; destruct Hc as (?Hb & ?Ht & ?Hs & ?Hu & ?Hl).

Lemma matchCodeSpan_plain b s : plainText s = true -> matchCodeSpan b s = None.
Proof.
  unfold plainText, matchCodeSpan. intros H.
  destruct s as [|c t]; [reflexivity|]. plain_head H. now rewrite Hb.
Qed.

Lemma matchStrike_plain b s : plainText s = true -> matchStrike b s = None.
Proof.
  unfold plainText, matchStrike. intros H.
  destruct s as [|c [|d t]]; try reflexivity. plain_head H. now rewrite Ht.
Qed.

Lemma matchBold_plain b s : plainText s = true -> matchBold b s = None.
Proof.
  unfold plainText, matchBold. intros H.
  destruct s as [|c [|d t]]; try reflexivity. plain_head H.
  now rewrite Hs, Hu.
Qed.

Lemma matchLink_plain b s : plainText s = true -> matchLink b s = None.
Proof.
  unfold plainText, matchLink. intros H.
  destruct s as [|c t]; [reflexivity|]. plain_head H. now rewrite Hl.
Qed.

Lemma italicBody_plain c pre s :
  (forall x, negb (isMarkup x) = true -> ceq x c = false) ->
  plainText s = true -> italicBody c pre s = None.
Proof.
  unfold plainText, italicBody. intros Hc H.
  destruct s as [|o t]; [reflexivity|].
  simpl in H. apply andb_prop in H. destruct H as [Ho _].
  now rewrite (Hc o Ho).
Qed.

Lemma matchItalic_plain c b s :
  (forall x, negb (isMarkup x) = true -> ceq x c = false) ->
  plainText s = true -> matchItalic c b s = None.
Proof.
  intros Hc H. unfold matchItalic.
  rewrite (italicBody_plain c [] s Hc H).
  replace (if b then @None (jsstring * jsstring) else None) with (@None (jsstring * jsstring))
    by (now destruct b).
  destruct s as [|p t]; [reflexivity|].
  assert (Ht : plainText t = true).
  { unfold plainText in *. simpl in H. now apply andb_prop in H. }
  rewrite (italicBody_plain c [p] t Hc Ht). now destruct (isNot c p).
Qed.

(** Text without a backtick, tilde, star, underscore or opening bracket
    goes through the inline styler unchanged: no escape sequence is added
    and no character is lost. *)
Theorem renderInline_plain (text : jsstring) :
  plainText text = true -> renderInline text = text.
Proof.
  intros H. unfold renderInline.
  rewrite (replaceAll_untouched matchCodeSpan _ text matchCodeSpan_plain H).
  rewrite (replaceAll_untouched matchStrike _ text matchStrike_plain H).
  rewrite (replaceAll_untouched matchBold _ text matchBold_plain H).
  rewrite (replaceAll_untouched (matchItalic STAR) _ text
             (fun b s => matchItalic_plain STAR b s
                           (fun x Hx => proj1 (proj2 (proj2 (plain_char x Hx))))) H).
  rewrite (replaceAll_untouched (matchItalic UNDERSCORE) _ text
             (fun b s => matchItalic_plain UNDERSCORE b s
                           (fun x Hx => proj1 (proj2 (proj2 (proj2 (plain_char x Hx)))))) H).
  exact (replaceAll_untouched matchLink _ text matchLink_plain H).
Qed.

Lemma renderInline_plain_witness :
  renderInline (str "plain text, (1) 2 > 3 # $x ]") = str "plain text, (1) 2 > 3 # $x ]".
Proof. exact (renderInline_plain (str "plain text, (1) 2 > 3 # $x ]") eq_refl). Defined.

Lemma stripAnsi_no_escape s : includes ESC s = false -> stripAnsi s = s.
Proof.
  induction s as [|c t IH]; intros H; [reflexivity|].
  apply includes_cons in H. destruct H as [Hc Ht].
  rewrite stripAnsi_unfold, (matchSgr_other true c t Hc).
  now rewrite (IH Ht).
Qed.

Lemma stripAnsi_shorter s : List.length (stripAnsi s) <= List.length s.
Proof.
  remember (List.length s) as n eqn:Hn. revert s Hn.
  induction n as [n IH] using lt_wf_ind. intros s Hn.
  rewrite stripAnsi_unfold.
  destruct (matchSgr true s) as [[r rest]|] eqn:E.
  - apply matchSgr_shorter in E. destruct E as [_ Hlt].
    specialize (IH (List.length rest) ltac:(lia) rest eq_refl). lia.
  - destruct s as [|c t]; [simpl; lia|]. simpl in Hn |- *.
    specialize (IH (List.length t) ltac:(lia) t eq_refl). lia.
Qed.

(** What [stripAnsi] leaves of styled text: a style sequence (escape,
    bracket, digits and semicolons, [m]) in front of any text and another
    one behind it are both removed and nothing else is touched by them;
    text without an escape character comes back as it is; the result is
    never longer than the input. *)
Theorem stripAnsi_styled (on off : string) (text : jsstring) :
  forallb isSgrParam (str on) = true ->
  forallb isSgrParam (str off) = true ->
  stripAnsi (ansi.sgr on ++ text ++ ansi.sgr off) = stripAnsi text
  /\ (includes ESC text = false ->
      stripAnsi (ansi.sgr on ++ text ++ ansi.sgr off) = text)
  /\ List.length (stripAnsi text) <= List.length text.
Proof.
  intros Hon Hoff.
  assert (H : stripAnsi (ansi.sgr on ++ text ++ ansi.sgr off) = stripAnsi text).
  { rewrite (stripAnsi_sgr on _ Hon).
    rewrite (sgr_shape off).
    rewrite stripAnsi_app by reflexivity.
    rewrite <- (sgr_shape off), <- (app_nil_r (ansi.sgr off)).
    rewrite (stripAnsi_sgr off [] Hoff). apply app_nil_r. }
  split; [exact H|]. split.
  - intros Hplain. rewrite H. now apply stripAnsi_no_escape.
  - apply stripAnsi_shorter.
Qed.

Lemma stripAnsi_styled_witness :
  stripAnsi (ansi.boldOn ++ str "bold" ++ ansi.boldOff) = str "bold".
Proof.
  destruct (stripAnsi_styled "1" "22" (str "bold") eq_refl eq_refl) as (_ & H & _).
  exact (H eq_refl).
Defined.

(* ===================================================================== *)
(** ** One inline span *)
(* ===================================================================== *)

Lemma replaceAllFrom_closed (m : matcher) (P : jsstring -> Prop) :
  (forall c t, P (c :: t) -> P t) ->
  (forall b s, P s -> m b s = None) ->
  forall fuel b s, P s -> replaceAllFrom m fuel b s = s.
Proof.
  intros Htl Hm. induction fuel as [|fuel IH]; intros b s Hs; [reflexivity|].
  simpl. rewrite (Hm b s Hs).
  destruct s as [|c t]; [reflexivity|]. f_equal. apply IH. now apply Htl with c.
Qed.

Lemma replaceAll_closed (m : matcher) (P : jsstring -> Prop) s :
  (forall c t, P (c :: t) -> P t) ->
  (forall b s, P s -> m b s = None) ->
  P s -> replaceAll m s = s.
Proof. intros. unfold replaceAll. now apply replaceAllFrom_closed with P. Qed.

(** A match of the whole text. *)
Lemma replaceAll_whole (m : matcher) c t replacement :
  m true (c :: t) = Some (replacement, []) -> m false [] = None ->
  replaceAll m (c :: t) = replacement.
Proof.
  intros H Hnil. unfold replaceAll. cbn [List.length replaceAllFrom].
  rewrite H. destruct (List.length t); simpl; rewrite ?Hnil; apply app_nil_r.
Qed.

Definition without (c : char) (s : jsstring) : Prop := includes c s = false.

Lemma without_tail c a t : without c (a :: t) -> without c t.
Proof. intros H. now apply includes_cons in H. Qed.

Lemma without_head c a t : without c (a :: t) -> ceq a c = false.
Proof. intros H. now apply includes_cons in H. Qed.

Lemma matchCodeSpan_without b s : without BACKTICK s -> matchCodeSpan b s = None.
Proof.
  intros H. destruct s as [|q t]; [reflexivity|].
  unfold matchCodeSpan. now rewrite (without_head _ _ _ H).
Qed.

Lemma matchStrike_without b s : without TILDE s -> matchStrike b s = None.
Proof.
  intros H. destruct s as [|a [|a' t]]; try reflexivity.
  unfold matchStrike. now rewrite (without_head _ _ _ H).
Qed.

Lemma matchBold_without b s :
  without STAR s /\ without UNDERSCORE s -> matchBold b s = None.
Proof.
  intros [H1 H2]. destruct s as [|a [|a' t]]; try reflexivity.
  unfold matchBold.
  now rewrite (without_head _ _ _ H1), (without_head _ _ _ H2).
Qed.

Lemma italicBody_without c pre s : without c s -> italicBody c pre s = None.
Proof.
  intros H. destruct s as [|o t]; [reflexivity|].
  unfold italicBody. now rewrite (without_head _ _ _ H).
Qed.

Lemma matchItalic_without c b s : without c s -> matchItalic c b s = None.
Proof.
  intros H. unfold matchItalic. rewrite (italicBody_without c [] s H).
  replace (if b then @None (jsstring * jsstring) else None)
    with (@None (jsstring * jsstring)) by (now destruct b).
  destruct s as [|p t]; [reflexivity|].
  rewrite (italicBody_without c [p] t (without_tail _ _ _ H)).
  now destruct (isNot c p).
Qed.

Lemma forallb_isNot c s : without c s -> forallb (isNot c) s = true.
Proof.
  induction s as [|a t IH]; intros H; [reflexivity|].
  simpl. unfold isNot at 1. rewrite (without_head _ _ _ H).
  apply IH. now apply without_tail with a.
Qed.

Lemma isNot_self c : isNot c c = false.
Proof. unfold isNot, ceq. now rewrite N.eqb_refl. Qed.

(** A link needs its closing bracket. *)
Lemma matchLink_unclosed b s : without 93%N s -> matchLink b s = None.
Proof.
  intros H. destruct s as [|o t]; [reflexivity|].
  unfold matchLink. destruct (ceq o 91%N); [|reflexivity].
  unfold runNot.
  rewrite (takeWhile_all _ t (forallb_isNot _ _ (without_tail _ _ _ H))).
  assert (E : dropWhile (isNot 93%N) t = []).
  { pose proof (forallb_isNot _ _ (without_tail _ _ _ H)) as Ht. clear H.
    induction t as [|a t IH]; [reflexivity|].
    simpl in *. apply andb_prop in Ht. destruct Ht as [Ha Ht].
    rewrite Ha. now apply IH. }
  rewrite E. now destruct t.
Qed.

Lemma pass_code s : without BACKTICK s -> replaceAll matchCodeSpan s = s.
Proof.
  apply (replaceAll_closed matchCodeSpan (without BACKTICK)).
  - apply without_tail.
  - intros b t. apply matchCodeSpan_without.
Qed.

Lemma pass_strike s : without TILDE s -> replaceAll matchStrike s = s.
Proof.
  apply (replaceAll_closed matchStrike (without TILDE)).
  - apply without_tail.
  - intros b t. apply matchStrike_without.
Qed.

Lemma pass_bold s :
  without STAR s -> without UNDERSCORE s -> replaceAll matchBold s = s.
Proof.
  intros H1 H2.
  apply (replaceAll_closed matchBold
           (fun s => without STAR s /\ without UNDERSCORE s)).
  - intros c t [A B]. split; now apply without_tail with c.
  - intros b t. apply matchBold_without.
  - now split.
Qed.

Lemma pass_italic c s : without c s -> replaceAll (matchItalic c) s = s.
Proof.
  apply (replaceAll_closed (matchItalic c) (without c)).
  - apply without_tail.
  - intros b t. apply matchItalic_without.
Qed.

Lemma pass_link s : without 93%N s -> replaceAll matchLink s = s.
Proof.
  apply (replaceAll_closed matchLink (without 93%N)).
  - apply without_tail.
  - intros b t. apply matchLink_unclosed.
Qed.

Lemma plain_without s :
  plainText s = true ->
  without BACKTICK s /\ without TILDE s /\ without STAR s
  /\ without UNDERSCORE s /\ without 91%N s.
Proof.
  unfold plainText, without, includes.
  induction s as [|c t IH]; intros H; [repeat split|].
  simpl in H. apply andb_prop in H. destruct H as [Hc Ht].
  apply plain_char in Hc. destruct Hc as (H1 & H2 & H3 & H4 & H5).
  destruct (IH Ht) as (I1 & I2 & I3 & I4 & I5).
  unfold ceq in *.
  cbn [existsb]. unfold ceq.
  rewrite (N.eqb_sym BACKTICK), (N.eqb_sym TILDE), (N.eqb_sym STAR),
          (N.eqb_sym UNDERSCORE), (N.eqb_sym 91%N).
  rewrite H1, H2, H3, H4, H5, I1, I2, I3, I4, I5. repeat split.
Qed.

Lemma without_app c s t : without c s -> without c t -> without c (s ++ t).
Proof. unfold without. intros Hs Ht. now rewrite includes_app, Hs, Ht. Qed.

(** The run [[^c]+] in front of its closing marker. *)
Lemma runNot_body c body rest :
  without c body -> runNot c (body ++ c :: rest) = (body, c :: rest).
Proof.
  intros H. unfold runNot.
  rewrite (takeWhile_run _ body c rest (forallb_isNot c body H) (isNot_self c)).
  now rewrite (dropWhile_run _ body c rest (forallb_isNot c body H) (isNot_self c)).
Qed.

Lemma lazyUntil_body a body :
  body <> [] -> without a body -> noLineTerminator body = true ->
  lazyUntil [a; a] (body ++ [a; a]) = Some (body, []).
Proof.
  intros Hne Hw Hnt. induction body as [|c t IH]; [contradiction|].
  cbn [app lazyUntil].
  simpl in Hnt. apply andb_prop in Hnt. destruct Hnt as [Hc Ht].
  apply negb_true_iff in Hc. rewrite Hc.
  destruct t as [|d t'].
  - cbn [app startsWith]. unfold ceq. rewrite N.eqb_refl. reflexivity.
  - assert (Hd : ceq a d = false).
    { pose proof (without_head _ _ _ (without_tail _ _ _ Hw)) as H.
      unfold ceq in *. now rewrite N.eqb_sym. }
    cbn [app startsWith]. rewrite Hd. cbn [andb].
    change (d :: t' ++ [a; a]) with ((d :: t') ++ [a; a]).
    rewrite IH; [reflexivity | discriminate | now apply without_tail with c | exact Ht].
Qed.

(** No two neighbours that are both stars or both underscores. *)
Fixpoint noDouble (s : jsstring) : bool :=
  match s with
  | a :: t =>
      match t with
      | b :: _ =>
          negb ((ceq a STAR && ceq b STAR)
                || (ceq a UNDERSCORE && ceq b UNDERSCORE))
          && noDouble t
      | [] => true
      end
  | [] => true
  end.

Lemma noDouble_cons a b t :
  noDouble (a :: b :: t)
  = negb ((ceq a STAR && ceq b STAR) || (ceq a UNDERSCORE && ceq b UNDERSCORE))
    && noDouble (b :: t).
Proof. reflexivity. Qed.

Lemma matchBold_noDouble b s : noDouble s = true -> matchBold b s = None.
Proof.
  destruct s as [|a [|a' t]]; try reflexivity.
  cbn [noDouble]. intros H. apply andb_prop in H. destruct H as [H _].
  apply negb_true_iff in H. unfold matchBold. now rewrite H.
Qed.

Lemma noDouble_tail c t : noDouble (c :: t) = true -> noDouble t = true.
Proof.
  destruct t as [|b t]; [reflexivity|].
  cbn [noDouble]. intros H. now apply andb_prop in H.
Qed.

Lemma noDouble_plain p c : plainText p = true -> noDouble (p ++ [c]) = true.
Proof.
  induction p as [|x p IH]; intros H; [reflexivity|].
  unfold plainText in H. simpl in H. apply andb_prop in H. destruct H as [Hx Hp].
  apply plain_char in Hx. destruct Hx as (_ & _ & Hs & Hu & _).
  change ((x :: p) ++ [c]) with (x :: (p ++ [c])).
  cbn [noDouble]. rewrite (IH Hp), Hs, Hu.
  now destruct (p ++ [c]).
Qed.

Lemma pass_bold_single c body :
  body <> [] -> plainText body = true ->
  replaceAll matchBold (c :: body ++ [c]) = c :: body ++ [c].
Proof.
  intros Hne H.
  apply (replaceAll_closed matchBold (fun s => noDouble s = true)).
  - apply noDouble_tail.
  - intros b t. apply matchBold_noDouble.
  - destruct body as [|x body]; [contradiction|].
    pose proof (noDouble_plain (x :: body) c H) as Hn.
    change ((x :: body) ++ [c]) with (x :: (body ++ [c])) in *.
    rewrite noDouble_cons, Hn.
    unfold plainText in H. simpl in H. apply andb_prop in H. destruct H as [Hx _].
    apply plain_char in Hx. destruct Hx as (_ & _ & Hs & Hu & _).
    now rewrite Hs, Hu, !andb_false_r.
Qed.

Lemma without_cons c a t : ceq a c = false -> without c t -> without c (a :: t).
Proof.
  unfold without, includes. intros Ha Ht. cbn [existsb].
  unfold ceq in *. now rewrite N.eqb_sym, Ha, Ht.
Qed.

Ltac inert :=
  first [ assumption
        | exact eq_refl
        | apply without_app; inert
        | apply without_cons; [exact eq_refl | inert] ].

(** One span of plain text between its markers, as the whole text: a code
    span, a strike-through, italic with a star or an underscore, bold with
    stars or underscores.  The markers go, the text is kept, and the style
    is switched on before it and off after it.  The text is not empty and
    holds no markup character (backtick, tilde, star, underscore, opening
    bracket) and no closing bracket: the escape sequences hold an opening
    bracket, so with a closing bracket in the text the link pattern can
    match across them.  For bold the text must not hold a line
    terminator either, which the dot of its pattern does not match. *)
Theorem inline_spans (body : jsstring) :
  body <> [] -> plainText body = true -> includes 93%N body = false ->
  renderInline ([BACKTICK] ++ body ++ [BACKTICK])
  = ansi.codeOn ++ body ++ ansi.codeOff
  /\ renderInline ([TILDE; TILDE] ++ body ++ [TILDE; TILDE])
     = ansi.strikeOn ++ body ++ ansi.strikeOff
  /\ renderInline ([STAR] ++ body ++ [STAR])
     = ansi.italicOn ++ body ++ ansi.italicOff
  /\ renderInline ([UNDERSCORE] ++ body ++ [UNDERSCORE])
     = ansi.italicOn ++ body ++ ansi.italicOff
  /\ (noLineTerminator body = true ->
      renderInline ([STAR; STAR] ++ body ++ [STAR; STAR])
      = ansi.boldOn ++ body ++ ansi.boldOff
      /\ renderInline ([UNDERSCORE; UNDERSCORE] ++ body ++ [UNDERSCORE; UNDERSCORE])
         = ansi.boldOn ++ body ++ ansi.boldOff).
Proof.
  intros Hne Hplain Hbr.
  destruct (plain_without body Hplain) as (Hb & Ht & Hs & Hu & Hl).
  assert (Hc : without 93%N body) by exact Hbr.
  destruct body as [|x body']; [contradiction|].
  set (body := x :: body') in *.
  unfold renderInline; cbv zeta.
  change ([BACKTICK] ++ body ++ [BACKTICK]) with (BACKTICK :: body ++ [BACKTICK]).
  change ([TILDE; TILDE] ++ body ++ [TILDE; TILDE])
    with (TILDE :: TILDE :: body ++ [TILDE; TILDE]).
  change ([STAR; STAR] ++ body ++ [STAR; STAR])
    with (STAR :: STAR :: body ++ [STAR; STAR]).
  change ([UNDERSCORE; UNDERSCORE] ++ body ++ [UNDERSCORE; UNDERSCORE])
    with (UNDERSCORE :: UNDERSCORE :: body ++ [UNDERSCORE; UNDERSCORE]).
  change ([STAR] ++ body ++ [STAR]) with (STAR :: body ++ [STAR]).
  change ([UNDERSCORE] ++ body ++ [UNDERSCORE])
    with (UNDERSCORE :: body ++ [UNDERSCORE]).
  split; [|split; [|split; [|split; [|intros Hnt; split]]]].
  - rewrite (replaceAll_whole matchCodeSpan BACKTICK (body ++ [BACKTICK])
               (ansi.codeOn ++ body ++ ansi.codeOff)); [| |reflexivity].
    + rewrite pass_strike, pass_bold, (pass_italic STAR), (pass_italic UNDERSCORE), pass_link by inert.
      reflexivity.
    + unfold matchCodeSpan. change (ceq BACKTICK BACKTICK) with true. cbv iota.
      rewrite (runNot_body BACKTICK body [] Hb). reflexivity.
  - rewrite pass_code by inert.
    rewrite (replaceAll_whole matchStrike TILDE (TILDE :: body ++ [TILDE; TILDE])
               (ansi.strikeOn ++ body ++ ansi.strikeOff)); [| |reflexivity].
    + rewrite pass_bold, (pass_italic STAR), (pass_italic UNDERSCORE), pass_link by inert. reflexivity.
    + unfold matchStrike. change (ceq TILDE TILDE && ceq TILDE TILDE) with true.
      cbv iota. rewrite (runNot_body TILDE body [TILDE] Ht). reflexivity.
  - rewrite pass_code, pass_strike by inert.
    rewrite (pass_bold_single STAR body Hne Hplain).
    rewrite (replaceAll_whole (matchItalic STAR) STAR (body ++ [STAR])
               (ansi.italicOn ++ body ++ ansi.italicOff)); [| |reflexivity].
    + rewrite (pass_italic UNDERSCORE), pass_link by inert. reflexivity.
    + unfold matchItalic, italicBody.
      change (ceq STAR STAR) with true. cbv iota.
      rewrite (runNot_body STAR body [] Hs). reflexivity.
  - rewrite pass_code, pass_strike by inert.
    rewrite (pass_bold_single UNDERSCORE body Hne Hplain).
    rewrite (pass_italic STAR) by inert.
    rewrite (replaceAll_whole (matchItalic UNDERSCORE) UNDERSCORE
               (body ++ [UNDERSCORE])
               (ansi.italicOn ++ body ++ ansi.italicOff)); [| |reflexivity].
    + rewrite pass_link by inert. reflexivity.
    + unfold matchItalic, italicBody.
      change (ceq UNDERSCORE UNDERSCORE) with true. cbv iota.
      rewrite (runNot_body UNDERSCORE body [] Hu). reflexivity.
  - rewrite pass_code, pass_strike by inert.
    rewrite (replaceAll_whole matchBold STAR (STAR :: body ++ [STAR; STAR])
               (ansi.boldOn ++ body ++ ansi.boldOff)); [| |reflexivity].
    + rewrite (pass_italic STAR), (pass_italic UNDERSCORE), pass_link by inert. reflexivity.
    + unfold matchBold.
      change ((ceq STAR STAR && ceq STAR STAR)
              || (ceq STAR UNDERSCORE && ceq STAR UNDERSCORE)) with true.
      cbv iota. now rewrite (lazyUntil_body STAR body) by (discriminate || assumption).
  - rewrite pass_code, pass_strike by inert.
    rewrite (replaceAll_whole matchBold UNDERSCORE
               (UNDERSCORE :: body ++ [UNDERSCORE; UNDERSCORE])
               (ansi.boldOn ++ body ++ ansi.boldOff)); [| |reflexivity].
    + rewrite (pass_italic STAR), (pass_italic UNDERSCORE), pass_link by inert. reflexivity.
    + unfold matchBold.
      change ((ceq UNDERSCORE STAR && ceq UNDERSCORE STAR)
              || (ceq UNDERSCORE UNDERSCORE && ceq UNDERSCORE UNDERSCORE)) with true.
      cbv iota.
      now rewrite (lazyUntil_body UNDERSCORE body) by (discriminate || assumption).
Qed.

Lemma inline_spans_witness :
  renderInline (str "`ls -l`") = ansi.codeOn ++ str "ls -l" ++ ansi.codeOff
  /\ renderInline (str "**very**") = ansi.boldOn ++ str "very" ++ ansi.boldOff
  /\ renderInline (str "_so_") = ansi.italicOn ++ str "so" ++ ansi.italicOff.
Proof.
  destruct (inline_spans (str "ls -l") ltac:(discriminate) eq_refl eq_refl)
    as (Hcode & _).
  destruct (inline_spans (str "very") ltac:(discriminate) eq_refl eq_refl)
    as (_ & _ & _ & _ & Hbold).
  destruct (Hbold eq_refl) as [Hstars _].
  destruct (inline_spans (str "so") ltac:(discriminate) eq_refl eq_refl)
    as (_ & _ & _ & Hitalic & _).
  repeat split; assumption.
Defined.

(** Why the text of a span is asked to hold no closing bracket and, for
    bold, no line terminator: with [a](b)] between backticks the link
    pattern matches from the bracket of the escape sequence and the result
    is not the plain code span; with a carriage return between the double
    stars nothing is styled. *)
Example inline_spans_limits :
  plainText (str "a](b)") = true
  /\ renderInline (str "`a](b)`")
     <> ansi.codeOn ++ str "a](b)" ++ ansi.codeOff
  /\ plainText [97%N; 13%N; 98%N] = true
  /\ renderInline ([STAR; STAR] ++ [97%N; 13%N; 98%N] ++ [STAR; STAR])
     = [STAR; STAR] ++ [97%N; 13%N; 98%N] ++ [STAR; STAR].
Proof.
  split; [reflexivity|]. split; [|split; vm_compute; reflexivity].
  intros H. vm_compute in H. discriminate H.
Qed.

(** A link as the whole text: the label is underlined and coloured, the
    address follows in parentheses.  Label and address are not empty and
    hold no markup character; the label holds no closing bracket and the
    address no closing parenthesis. *)
Theorem inline_link (label url : jsstring) :
  label <> [] -> url <> [] ->
  plainText label = true -> plainText url = true ->
  includes 93%N label = false -> includes 41%N url = false ->
  renderInline ([91%N] ++ label ++ [93%N; 40%N] ++ url ++ [41%N])
  = ansi.underlineOn ++ ansi.cyanOn ++ label
    ++ ansi.underlineOff ++ ansi.cyanOff ++ str " (" ++ url ++ str ")".
Proof.
  intros Hl Hu Hpl Hpu Hbr Hpa.
  destruct (plain_without label Hpl) as (Lb & Lt & Ls & Lu & _).
  destruct (plain_without url Hpu) as (Ub & Ut & Us & Uu & _).
  destruct label as [|x label']; [contradiction|].
  destruct url as [|y url']; [contradiction|].
  set (label := x :: label') in *. set (url := y :: url') in *.
  unfold renderInline; cbv zeta.
  rewrite pass_code, pass_strike, pass_bold, (pass_italic STAR), (pass_italic UNDERSCORE) by inert.
  change ([91%N] ++ label ++ [93%N; 40%N] ++ url ++ [41%N])
    with (91%N :: label ++ 93%N :: 40%N :: url ++ [41%N]).
  apply replaceAll_whole; [|reflexivity].
  unfold matchLink. change (ceq 91%N 91%N) with true. cbv iota.
  rewrite runNot_body by exact Hbr.
  unfold label at 1.
  change (ceq 93%N 93%N && ceq 40%N 40%N) with true. cbv iota.
  rewrite runNot_body by exact Hpa. reflexivity.
Qed.

Lemma inline_link_witness :
  renderInline (str "[docs](https://example.org/a)")
  = ansi.underlineOn ++ ansi.cyanOn ++ str "docs"
    ++ ansi.underlineOff ++ ansi.cyanOff ++ str " (https://example.org/a)".
Proof.
  exact (inline_link (str "docs") (str "https://example.org/a")
           ltac:(discriminate) ltac:(discriminate)
           eq_refl eq_refl eq_refl eq_refl).
Defined.

(* ===================================================================== *)
(** ** Streaming *)
(* ===================================================================== *)

(** A table is handed to the sink as soon as a line that is no data row
    has been read, without waiting for [flush]: after a header, a
    separator, data rows and one more line without a pipe that is not a
    fence, all read by [write], the sink holds the rendered table and then
    that line, and nothing is pending or open. *)
Theorem table_closed_by_next_line (head sep after : jsstring)
    (rowLines : list jsstring) :
  Forall oneLine (head :: sep :: rowLines ++ [after]) ->
  isTableRow head = true -> isFence head = false ->
  isTableSeparator sep = true ->
  Forall (fun l => isTableRow l = true /\ isTableSeparator l = false) rowLines ->
  isTableRow after = false -> isFence after = false ->
  write (linesText (head :: sep :: rowLines ++ [after])) createMarkdownRenderer
  = machine [] [] false None
      [renderTable {| header := parseTableRow head;
                      rows := map parseTableRow rowLines |} ++ newline;
       renderLine after ++ newline].
Proof.
  intros Hl Hr Hf Hs Hrows Har Haf.
  rewrite (write_linesText _ Hl).
  rewrite processPending_unfold,
          (pass_table_open false [] head sep (rowLines ++ [after]) [] Hr Hf Hs).
  rewrite (table_rows_loop false rowLines [] [after] false _ [] Hrows).
  cbn [header rows app].
  rewrite processPending_unfold, pass_table_close by (now rewrite Har).
  rewrite processPending_unfold, (pass_plain false [] after [] _ Haf Har).
  now rewrite processPending_stops by reflexivity.
Qed.

Lemma table_closed_by_next_line_witness :
  written (write (str "a|b" ++ newline ++ str "-|-" ++ newline
                  ++ str "1|2" ++ newline ++ newline)
             createMarkdownRenderer)
  = [renderTable {| header := [str "a"; str "b"];
                    rows := [[str "1"; str "2"]] |} ++ newline;
     newline].
Proof.
  exact (f_equal written
           (table_closed_by_next_line (str "a|b") (str "-|-") [] [str "1|2"]
              ltac:(repeat constructor) eq_refl eq_refl eq_refl
              ltac:(repeat constructor) eq_refl eq_refl)).
Defined.

Lemma join_split sep s : join [sep] (split sep s) = s.
Proof.
  induction s as [|c t IH]; [reflexivity|].
  pose proof (split_nonempty sep t) as Hn.
  destruct (ceq c sep) eqn:E.
  - rewrite split_cons_sep by exact E. apply ceq_eq in E. subst c.
    destruct (split sep t) as [|l ls]; [contradiction|].
    change (join [sep] ([] :: l :: ls)) with (sep :: join [sep] (l :: ls)).
    now rewrite IH.
  - rewrite split_cons_other by exact E.
    destruct (split sep t) as [|l [|l2 ls]]; [contradiction | |].
    + simpl in *. now rewrite IH.
    + rewrite <- IH. reflexivity.
Qed.

(** Cutting a chunk into lines loses nothing: the lines [write] appends to
    the queue, followed by the new buffer, joined by newlines, are the old
    buffer followed by the chunk; the lines that were pending stay in
    front, and neither a new line nor the new buffer holds a newline. *)
Theorem write_keeps_text (chunk : jsstring) (m : Machine) :
  exists pushed,
    pendingLines (state (run (receive chunk m) m))
    = pendingLines (state m) ++ pushed
    /\ join newline (pushed ++ [buffer (state (run (receive chunk m) m))])
       = buffer (state m) ++ chunk
    /\ Forall oneLine pushed
    /\ oneLine (buffer (state (run (receive chunk m) m))).
Proof.
  rewrite receive_run.
  destruct m as [[b p c t] w].
  cbn [push setBuffer setPendingLines state pendingLines buffer].
  set (lines := split LF (b ++ chunk)).
  exists (removelast lines).
  assert (Hne : lines <> []) by apply split_nonempty.
  assert (Hall : removelast lines ++ [last lines []] = lines)
    by (symmetry; now apply app_removelast_last).
  split; [reflexivity|]. split; [|split].
  - rewrite Hall. apply join_split.
  - pose proof (split_pieces_clean LF (b ++ chunk)) as Hclean.
    fold lines in Hclean. rewrite <- Hall in Hclean.
    now apply Forall_app in Hclean.
  - apply split_last_clean.
Qed.

(* ===================================================================== *)
(** ** The end of the stream *)
(* ===================================================================== *)

(** The lines [flush] has to deal with: the pending ones, then the buffer
    when it is not empty. *)
Definition flushQueue (m : Machine) : list jsstring :=
  pendingLines (state m)
  ++ (if isEmpty (buffer (state m)) then [] else [buffer (state m)]).

(** The two [if] statements that end [flush]. *)
Definition closeBlocks (m : Machine) : Machine :=
  let m := run (closeTable m) m in
  run (closeCodeBlock m) m.

(** The leading lines that pass a test, and the lines from the first one
    that fails it. *)
Fixpoint leadingLines (p : jsstring -> bool) (lines : list jsstring)
    : list jsstring :=
  match lines with
  | l :: t => if p l then l :: leadingLines p t else []
  | [] => []
  end.

Fixpoint remainingLines (p : jsstring -> bool) (lines : list jsstring)
    : list jsstring :=
  match lines with
  | l :: t => if p l then remainingLines p t else lines
  | [] => []
  end.

(** The test of TABLE mode for a data row, and of CODE mode for a line of
    the block. *)
Definition isDataRow (l : jsstring) : bool :=
  isTableRow l && negb (isTableSeparator l).

Definition notFence (l : jsstring) : bool := negb (isFence l).

Lemma leading_remaining p lines :
  leadingLines p lines ++ remainingLines p lines = lines.
Proof.
  induction lines as [|l t IH]; [reflexivity|].
  simpl. destruct (p l); [simpl; now rewrite IH | reflexivity].
Qed.

Lemma leading_all p lines : Forall (fun l => p l = true) (leadingLines p lines).
Proof.
  induction lines as [|l t IH]; [constructor|].
  simpl. destruct (p l) eqn:E; [now constructor | constructor].
Qed.

Lemma remaining_head p lines l rest :
  remainingLines p lines = l :: rest -> p l = false.
Proof.
  induction lines as [|a t IH]; [discriminate|].
  simpl. destruct (p a) eqn:E; [exact IH|].
  intros H. inversion H; subst. exact E.
Qed.

Lemma flush_closeBlocks m :
  flush m = closeBlocks (processPending true (run (moveBuffer m) m)).
Proof. reflexivity. Qed.

Lemma moveBuffer_run b p c t w :
  run (moveBuffer (machine b p c t w)) (machine b p c t w)
  = machine [] (flushQueue (machine b p c t w)) c t w.
Proof.
  unfold flushQueue, moveBuffer, machine. cbn [state buffer pendingLines].
  destruct b as [|x b]; cbn [isEmpty negb run fold_left].
  - now rewrite app_nil_r.
  - reflexivity.
Qed.

Lemma flush_queue queue c t w :
  flush (machine [] queue c t w)
  = closeBlocks (processPending true (machine [] queue c t w)).
Proof. reflexivity. Qed.

(** The final drain with a table open: the leading data rows are
    collected, then the table is handed to the sink, by the loop when a
    line follows and by [flush] itself when none does. *)
Lemma drain_open_table queue c table w :
  closeBlocks (processPending true (machine [] queue c (Some table) w))
  = closeBlocks
      (processPending true
         (machine [] (remainingLines isDataRow queue) c None
            (w ++ [renderTable
                     {| header := header table;
                        rows := rows table
                                ++ map parseTableRow (leadingLines isDataRow queue) |}
                   ++ newline]))).
Proof.
  rewrite <- (leading_remaining isDataRow queue) at 1.
  rewrite (table_rows_loop true (leadingLines isDataRow queue) []
             (remainingLines isDataRow queue) c table w).
  2:{ eapply Forall_impl; [|apply leading_all]. intros l Hl.
      unfold isDataRow in Hl. apply andb_prop in Hl. destruct Hl as [H1 H2].
      split; [exact H1 | now apply negb_true_iff]. }
  destruct (remainingLines isDataRow queue) as [|l rest] eqn:E.
  - rewrite !processPending_stops by reflexivity. reflexivity.
  - apply remaining_head in E.
    rewrite processPending_unfold.
    now rewrite pass_table_close by exact E.
Qed.

(** The final drain with a code block open: the leading lines that are no
    fence are handed to the sink as they are, then the style reset, by the
    loop when a fence line follows and by [flush] itself when none does. *)
Lemma drain_open_code queue w :
  closeBlocks (processPending true (machine [] queue true None w))
  = closeBlocks
      (processPending true
         (machine [] (tl (remainingLines notFence queue)) false None
            (w ++ map (fun l => l ++ newline) (leadingLines notFence queue)
               ++ [ansi.codeOff ++ newline]))).
Proof.
  rewrite <- (leading_remaining notFence queue) at 1.
  rewrite (code_lines_loop true (leadingLines notFence queue) []
             (remainingLines notFence queue) w).
  2:{ eapply Forall_impl; [|apply leading_all]. intros l Hl.
      now apply negb_true_iff. }
  rewrite app_assoc.
  destruct (remainingLines notFence queue) as [|l rest] eqn:E.
  - rewrite !processPending_stops by reflexivity. reflexivity.
  - apply remaining_head in E. apply negb_false_iff in E.
    rewrite processPending_unfold.
    now rewrite (pass_fence_close true [] l rest _ E).
Qed.

(** C7.  [flush], from any state.  Let [d] be the state after the buffer
    was moved and the loop has run in final mode: a table open in [d] is
    rendered and handed to the sink, then the style reset for a code block
    open in [d], which is not a fence line, and the state is the initial
    one again.  In terms of the state [flush] is called in, with [queue]
    the lines still to read (the pending ones, then the buffer): a table
    open at the call is handed to the sink rendered with the rows it had
    and the data rows leading [queue], before anything else, and the stream
    goes on from the first line that is no data row with no table open; a
    code block open at the call gets the lines leading [queue] that are no
    fence handed over as they are, then the style reset, whether a fence
    line follows or the stream ends, and the stream goes on after that
    fence line with no code block open. *)
Theorem flush_closes_open_blocks (m : Machine) :
  let d := processPending true (run (moveBuffer m) m) in
  state (flush m) = createInitialState
  /\ written (flush m) =
     written d
     ++ match tableState (state d) with
        | Some table => [renderTable table ++ newline]
        | None => []
        end
     ++ (if inCodeBlock (state d) then [ansi.codeOff ++ newline] else [])
  /\ isFence (ansi.codeOff ++ newline) = false
  /\ (buffer (state m) = [] -> pendingLines (state m) = [] -> d = m)
  /\ (forall table, tableState (state m) = Some table ->
      let rendered :=
        renderTable
          {| header := header table;
             rows := rows table
                     ++ map parseTableRow
                          (leadingLines isDataRow (flushQueue m)) |}
        ++ newline in
      flush m
      = flush (machine [] (remainingLines isDataRow (flushQueue m))
                 (inCodeBlock (state m)) None (written m ++ [rendered]))
      /\ exists more, written (flush m) = written m ++ rendered :: more)
  /\ (tableState (state m) = None -> inCodeBlock (state m) = true ->
      let emitted :=
        map (fun l => l ++ newline) (leadingLines notFence (flushQueue m))
        ++ [ansi.codeOff ++ newline] in
      flush m
      = flush (machine [] (tl (remainingLines notFence (flushQueue m)))
                 false None (written m ++ emitted))
      /\ exists more, written (flush m) = written m ++ emitted ++ more).
Proof.
  intros d.
  assert (Hb : buffer (state d) = []).
  { unfold d. rewrite processPending_buffer.
    destruct m as [[b p c t] w]. unfold moveBuffer; simpl.
    destruct b; reflexivity. }
  assert (Hp : pendingLines (state d) = []).
  { apply iteration_final_none. apply processPending_exits. }
  split; [|split; [|split; [|split; [|split]]]].
  - unfold flush. fold d.
    destruct d as [[b p c t] w]; simpl in *. subst b p.
    unfold closeTable, closeCodeBlock; simpl.
    destruct t, c; reflexivity.
  - unfold flush. fold d.
    destruct d as [[b p c t] w]; simpl in *.
    unfold closeTable, closeCodeBlock; simpl.
    destruct t, c; simpl; rewrite ?app_nil_r, <- ?app_assoc; reflexivity.
  - reflexivity.
  - unfold d. destruct m as [[b p c t] w]; simpl. intros -> ->.
    apply processPending_stops. reflexivity.
  - clear d Hb Hp. intros table Ht rendered.
    destruct m as [[b p c t] w]. cbn [state tableState] in Ht. subst t.
    fold (machine b p c (Some table) w) in *.
    assert (E : flush (machine b p c (Some table) w)
                = flush (machine []
                           (remainingLines isDataRow
                              (flushQueue (machine b p c (Some table) w)))
                           c None (w ++ [rendered]))).
    { rewrite flush_closeBlocks, moveBuffer_run, flush_queue.
      apply drain_open_table. }
    split; [exact E|].
    rewrite E.
    destruct (flush_appends
                (machine []
                   (remainingLines isDataRow
                      (flushQueue (machine b p c (Some table) w)))
                   c None (w ++ [rendered]))) as (more & Hmore).
    exists more. rewrite Hmore. cbn [machine written].
    now rewrite <- app_assoc.
  - clear d Hb Hp. intros Ht Hc emitted.
    destruct m as [[b p c t] w]. cbn [state tableState inCodeBlock] in Ht, Hc.
    subst t c.
    fold (machine b p true None w) in *.
    assert (E : flush (machine b p true None w)
                = flush (machine []
                           (tl (remainingLines notFence
                                  (flushQueue (machine b p true None w))))
                           false None (w ++ emitted))).
    { rewrite flush_closeBlocks, moveBuffer_run, flush_queue.
      apply drain_open_code. }
    split; [exact E|].
    rewrite E.
    destruct (flush_appends
                (machine []
                   (tl (remainingLines notFence
                          (flushQueue (machine b p true None w))))
                   false None (w ++ emitted))) as (more & Hmore).
    exists more. rewrite Hmore. cbn [machine written].
    now rewrite <- app_assoc.
Qed.

(** The theorem at the end of four streams: a table is open and an
    unfinished line that is no row follows; a table is open and an
    unfinished row follows; a code block is open and an unfinished line
    follows; a table is open and nothing follows. *)
Lemma flush_closes_open_blocks_witness :
  let table := {| header := [str "a"; str "b"];
                  rows := [[str "1"; str "2"]] |} in
  let opened := str "a|b" ++ newline ++ str "-|-" ++ newline
                ++ str "1|2" ++ newline in
  let beforeTail := machine (str "tail") [] false (Some table) [] in
  let beforeRow := machine (str "3|4") [] false (Some table) [] in
  let inCode :=
    machine (str "x") [] true None [ansi.codeOn ++ newline; str "y" ++ newline] in
  let inTable := machine [] [] false (Some table) [] in
  (write (opened ++ str "tail") createMarkdownRenderer = beforeTail
   /\ written (flush beforeTail)
      = [renderTable table ++ newline; str "tail" ++ newline])
  /\ (write (opened ++ str "3|4") createMarkdownRenderer = beforeRow
      /\ written (flush beforeRow)
         = [renderTable {| header := [str "a"; str "b"];
                           rows := [[str "1"; str "2"]; [str "3"; str "4"]] |}
            ++ newline])
  /\ (write (str "```" ++ newline ++ str "y" ++ newline ++ str "x")
        createMarkdownRenderer = inCode
      /\ flush inCode
         = {| state := createInitialState;
              written := [ansi.codeOn ++ newline; str "y" ++ newline;
                          str "x" ++ newline; ansi.codeOff ++ newline] |})
  /\ (write opened createMarkdownRenderer = inTable
      /\ flush inTable
         = {| state := createInitialState;
              written := [renderTable table ++ newline] |}).
Proof.
  intros table opened beforeTail beforeRow inCode inTable.
  split; [|split; [|split]]; (split; [vm_compute; reflexivity|]).
  - pose proof (flush_closes_open_blocks beforeTail) as H. cbv zeta in H.
    destruct H as (_ & _ & _ & _ & Ht & _).
    destruct (Ht table eq_refl) as [E _]. rewrite E.
    vm_compute. reflexivity.
  - pose proof (flush_closes_open_blocks beforeRow) as H. cbv zeta in H.
    destruct H as (_ & _ & _ & _ & Ht & _).
    destruct (Ht table eq_refl) as [E _]. rewrite E.
    vm_compute. reflexivity.
  - pose proof (flush_closes_open_blocks inCode) as H. cbv zeta in H.
    destruct H as (_ & _ & _ & _ & _ & Hc).
    destruct (Hc eq_refl eq_refl) as [E _]. rewrite E.
    vm_compute. reflexivity.
  - pose proof (flush_closes_open_blocks inTable) as H. cbv zeta in H.
    destruct H as (_ & _ & _ & _ & Ht & _).
    destruct (Ht table eq_refl) as [E _]. rewrite E.
    vm_compute. reflexivity.
Defined.

Lemma flushQueue_machine b p c t w :
  flushQueue (machine b p c t w) = p ++ (if isEmpty b then [] else [b]).
Proof. reflexivity. Qed.

Lemma pass_last_candidate b line w :
  isFence line = false ->
  iteration true (machine b [line] false None w)
  = Some (machine b [] false None (w ++ [renderLine line ++ newline])).
Proof.
  intros Hf. unfold iteration, iterationBody, machine.
  cbn [state pendingLines tableState inCodeBlock nth_error List.length].
  rewrite Hf. now destruct (isTableRow line).
Qed.

(** C5.  A line with a pipe that is alone in the queue, in NORMAL mode, and
    is not a fence line (a fence line is decided without look-ahead) makes
    the loop wait: [processPending] without [final] changes nothing, so the
    line stays pending and nothing about it is handed to the sink.  When
    the stream ends there and no separator line follows, that is, the
    buffer is empty or holds anything but a separator line, [flush] hands
    the line to the sink as a generic rendered line, before anything else,
    and goes on with the buffer alone; with an empty buffer that is all
    it does. *)
Theorem lone_candidate_resolved_by_flush (m : Machine) (line : jsstring) :
  tableState (state m) = None ->
  inCodeBlock (state m) = false ->
  pendingLines (state m) = [line] ->
  isTableRow line = true ->
  isFence line = false ->
  isTableSeparator (buffer (state m)) = false ->
  processPending false m = m
  /\ flush m
     = flush (machine (buffer (state m)) [] false None
                (written m ++ [renderLine line ++ newline]))
  /\ (exists more,
        written (flush m) = written m ++ (renderLine line ++ newline) :: more)
  /\ (buffer (state m) = [] ->
      flush m = {| state := createInitialState;
                   written := written m ++ [renderLine line ++ newline] |}).
Proof.
  intros Ht Hc Hp Hrow Hfence Hsep.
  destruct m as [[b p c t] w]; simpl in *. subst t c p.
  fold (machine b [line] false None w).
  assert (E : flush (machine b [line] false None w)
              = flush (machine b [] false None
                         (w ++ [renderLine line ++ newline]))).
  { rewrite !flush_closeBlocks, !moveBuffer_run, !flushQueue_machine.
    destruct b as [|x b']; cbn [isEmpty app]; rewrite processPending_unfold.
    - now rewrite (pass_last_candidate [] line w Hfence).
    - now rewrite (pass_generic true [] line (x :: b') [] w Hfence Hsep). }
  split; [|split; [exact E | split]].
  - apply processPending_stops.
    unfold iteration, iterationBody, machine; simpl. now rewrite Hfence, Hrow.
  - rewrite E.
    destruct (flush_appends (machine b [] false None
                               (w ++ [renderLine line ++ newline])))
      as (more & Hmore).
    exists more. rewrite Hmore. cbn [machine written]. now rewrite <- app_assoc.
  - intros ->. rewrite E. unfold machine. fold createInitialState.
    apply flush_fresh.
Qed.

(** The theorem on the line [a|b]: written with its newline it stays
    pending, and [flush] then emits it; written with its newline and
    followed by the unfinished line [xyz], [flush] emits it and then
    [xyz].  The stream [a|b] without a newline ends like the first. *)
Lemma lone_candidate_resolved_by_flush_witness :
  let m := machine [] [str "a|b"] false None [] in
  let followed := machine (str "xyz") [str "a|b"] false None [] in
  (write (str "a|b" ++ newline) createMarkdownRenderer = m
   /\ processPending false m = m
   /\ flush m = {| state := createInitialState;
                   written := [str "a|b" ++ newline] |})
  /\ (write (str "a|b" ++ newline ++ str "xyz") createMarkdownRenderer = followed
      /\ processPending false followed = followed
      /\ written (flush followed) = [str "a|b" ++ newline; str "xyz" ++ newline])
  /\ render [str "a|b"] = [str "a|b" ++ newline].
Proof.
  intros m followed.
  split; [|split; [|vm_compute; reflexivity]];
    (split; [vm_compute; reflexivity|]).
  - destruct (lone_candidate_resolved_by_flush m (str "a|b")
                eq_refl eq_refl eq_refl eq_refl eq_refl eq_refl)
      as (Hd & _ & _ & Hf).
    split; [exact Hd | exact (Hf eq_refl)].
  - destruct (lone_candidate_resolved_by_flush followed (str "a|b")
                eq_refl eq_refl eq_refl eq_refl eq_refl eq_refl)
      as (Hd & Hf & _).
    split; [exact Hd|]. rewrite Hf. vm_compute. reflexivity.
Defined.
